(** * The ESLint flat configuration of the site (eslint.config.js)

    The module imports four packages and exports one array literal.  The
    literal is the whole "rule-set composer": plain elements are kept, the
    spread element [...astro.configs.recommended] is spliced in place, and
    one [rules] object is built by an object spread.

    The file has, in this order:
    - the JavaScript values the module handles and the evaluation of
      property reads and of array and object literals with spread ([JS]);
    - the exported configuration as a function of the four imports
      ([compose], [default_export]);
    - the vocabulary of the specification (flattening, declared plugins);
    - the glob matcher and the linting engine that consume the plan: they
      are not part of the repository and are modelled from the
      specification ([Glob], section [Engine]);
    - the same evaluation over a store of shared objects ([Store]) and
      with every sub-expression in place ([InPlace]), and what it means
      for a run over the store to succeed ([Run]);
    - the properties. *)

From stdpp Require Import base option list strings gmap.
From Stdlib Require Import Ascii DecimalString.

Local Open Scope string_scope.
Local Open Scope list_scope.
Local Set Warnings "-register-all,-clear-no-such-hyp".

(** ** JavaScript values *)

Module JS.

(** The data a configuration is made of.  [VOpaque] stands for a host
    value that the module only passes along (a parser, a rule
    implementation): it has no property the module reads, no own
    enumerable property, and is not iterable. *)
Inductive value : Type :=
| VUndefined
| VStr (s : string)
| VOpaque (tag : string)
| VArr (items : list value)
| VObj (props : list (string * value)).

(** What evaluation can throw.  [TypeError] is the only error an array or
    object literal and a property read raise; [ConfigurationError] is the
    error kind of the specification, kept here so that statements can
    name it. *)
Inductive error : Type :=
| TypeError
| ConfigurationError.

Inductive result (A : Type) : Type :=
| Ok (a : A)
| Throw (e : error).
Arguments Ok {A} a.
Arguments Throw {A} e.

#[export] Instance result_ret : MRet result := fun _ a => Ok a.
#[export] Instance result_bind : MBind result := fun _ _ k r =>
  match r with
  | Ok a => k a
  | Throw e => Throw e
  end.

Definition is_array (v : value) : bool :=
  match v with VArr _ => true | _ => false end.

(** *** Own properties *)

Section Properties.

Context {A : Type}.

(** [obj_get k ps]: the value stored under [k], if any. *)
Fixpoint obj_get (k : string) (ps : list (string * A)) : option A :=
  match ps with
  | [] => None
  | (k', v) :: ps' => if String.eqb k k' then Some v else obj_get k ps'
  end.

(** [obj_set k v ps]: define property [k]; an existing key keeps its place
    and takes the new value, a new key goes last.  (JavaScript lists
    integer-like keys first; the order of keys plays no part below.) *)
Fixpoint obj_set (k : string) (v : A) (ps : list (string * A))
  : list (string * A) :=
  match ps with
  | [] => [(k, v)]
  | (k', v') :: ps' =>
      if String.eqb k k' then (k', v) :: ps' else (k', v') :: obj_set k v ps'
  end.

Definition define (ps : list (string * A)) (kv : string * A)
  : list (string * A) :=
  obj_set kv.1 kv.2 ps.

Definition index_key (i : nat) : string :=
  NilZero.string_of_uint (Nat.to_uint i).

(** The elements of an array as properties keyed by their index. *)
Fixpoint indexed (i : nat) (vs : list A) : list (string * A) :=
  match vs with
  | [] => []
  | v :: vs' => (index_key i, v) :: indexed (S i) vs'
  end.

End Properties.

(** The characters of a string, each as a string of length one (what
    iterating a string of ASCII characters yields). *)
Fixpoint chars (s : string) : list string :=
  match s with
  | EmptyString => []
  | String c s' => String c EmptyString :: chars s'
  end.

(** The own enumerable properties an object spread [{...v}] copies. *)
Definition own_props (v : value) : list (string * value) :=
  match v with
  | VObj ps => ps
  | VArr vs => indexed 0 vs
  | VStr s => indexed 0 (VStr <$> chars s)
  | VUndefined | VOpaque _ => []
  end.

(** [v.k] for an identifier [k] other than [length]: reading a property of
    [undefined] throws, a missing property reads as [undefined]. *)
Definition member (v : value) (k : string) : result value :=
  match v with
  | VUndefined => Throw TypeError
  | VObj ps => Ok (default VUndefined (obj_get k ps))
  | VStr _ | VOpaque _ | VArr _ => Ok VUndefined
  end.

(** [v.k1.k2...]: a chain of property reads, left to right. *)
Fixpoint read (v : value) (ks : list string) : result value :=
  match ks with
  | [] => Ok v
  | k :: ks' => v' ← member v k; read v' ks'
  end.

(** *** Object literals *)

Inductive property : Type :=
| Field (k : string) (v : value)
| SpreadField (v : value).

Definition add_property (ps : list (string * value)) (p : property)
  : list (string * value) :=
  match p with
  | Field k v => obj_set k v ps
  | SpreadField v => foldl define ps (own_props v)
  end.

Definition object_literal (props : list property) : value :=
  VObj (foldl add_property [] props).

(** *** Array literals *)

Inductive element : Type :=
| Item (v : value)
| Spread (v : value).

(** The values a spread element [...v] contributes: an array gives its
    elements, a string its characters, anything else is not iterable. *)
Definition iterate (v : value) : result (list value) :=
  match v with
  | VArr vs => Ok vs
  | VStr s => Ok (VStr <$> chars s)
  | VUndefined | VOpaque _ | VObj _ => Throw TypeError
  end.

Definition element_values (e : element) : result (list value) :=
  match e with
  | Item v => Ok [v]
  | Spread v => iterate v
  end.

Fixpoint array_literal (es : list element) : result (list value) :=
  match es with
  | [] => Ok []
  | e :: es' =>
      vs ← element_values e;
      rest ← array_literal es';
      Ok (vs ++ rest)
  end.

End JS.
Export JS.

(** ** The configuration module *)

(** [compose] is the composition step of the module: the evaluation of its
    array literal, element by element, with spread elements spliced in. *)
Definition compose (es : list element) : result (list value) :=
  array_literal es.

Definition ts_files : value := VArr [VStr "**/*.{js,mjs,cjs,ts,jsx,tsx}"].

Definition ts_fragment (typescript typescriptParser ts_rules : value) : value :=
  object_literal
    [ Field "files" ts_files;
      Field "languageOptions"
        (object_literal
           [ Field "parser" typescriptParser;
             Field "parserOptions"
               (object_literal
                  [ Field "ecmaVersion" (VStr "latest");
                    Field "sourceType" (VStr "module") ]) ]);
      Field "plugins" (object_literal [ Field "@typescript-eslint" typescript ]);
      Field "rules" (object_literal [ SpreadField ts_rules ]) ].

Definition astro_fragment : value :=
  object_literal
    [ Field "files" (VArr [VStr "**/*.astro"]);
      Field "rules"
        (object_literal
           [ Field "astro/no-conflict-set-directives" (VStr "error");
             Field "astro/no-unused-define-vars-in-style" (VStr "error") ]) ].

Definition ignores_fragment : value :=
  object_literal
    [ Field "ignores" (VArr [VStr "dist/"; VStr "node_modules/"; VStr ".astro/"]) ].

(** The default export, given the default exports of the four imported
    packages.  The three property chains are read first, in the order in
    which the literal reaches them; the object literals between them
    cannot fail.  ([InPlace.default_export] below evaluates every
    sub-expression where the literal has it, with the same result.) *)
Definition default_export (js typescript typescriptParser astro : value)
  : result (list value) :=
  js_recommended ← read js ["configs"; "recommended"];
  ts_rules ← read typescript ["configs"; "recommended"; "rules"];
  astro_recommended ← read astro ["configs"; "recommended"];
  compose
    [ Item js_recommended;
      Item (ts_fragment typescript typescriptParser ts_rules);
      Spread astro_recommended;
      Item astro_fragment;
      Item ignores_fragment ].

(** The property names the module reads from the imported packages
    ([js.configs.recommended], [typescript.configs.recommended.rules],
    [astro.configs.recommended]).  None of them is a name a value
    inherits, so reading one finds an own property or nothing. *)
Definition imported_keys : list string := ["configs"; "recommended"; "rules"].

(** ** Flattening, as the specification words it *)

(** The value an element of the literal carries, spread or not: the input
    sequence as the specification sees it. *)
Definition element_value (e : element) : value :=
  match e with
  | Item v | Spread v => v
  end.

(** Left-to-right, depth-first flatten: every array is replaced by its
    flattened elements, whatever the nesting depth. *)
Fixpoint flatten (v : value) : list value :=
  match v with
  | VArr vs =>
      (fix go (l : list value) : list value :=
         match l with
         | [] => []
         | x :: l' => flatten x ++ go l'
         end) vs
  | _ => [v]
  end.

Definition flatten_all (vs : list value) : list value :=
  flatten (VArr vs).

(** An entry of nesting depth at most one: a fragment written as a plain
    element, or an array of fragments written as a spread element. *)
Definition fragment_entry (e : element) : bool :=
  match e with
  | Item v => negb (is_array v)
  | Spread (VArr vs) => forallb (fun v => negb (is_array v)) vs
  | Spread _ => false
  end.

Definition flat (plan : list value) : bool :=
  forallb (fun v => negb (is_array v)) plan.

(** ** Fragments *)

(** [field k f]: the value under key [k] of the fragment (or object) [f]. *)
Definition field (k : string) (f : value) : option value :=
  match f with
  | VObj ps => obj_get k ps
  | _ => None
  end.

Definition keys (v : value) : list string :=
  match v with
  | VObj ps => ps.*1
  | _ => []
  end.

(** The names a fragment's [plugins] map declares and the names its
    [rules] map configures. *)
Definition plugin_names (f : value) : list string :=
  from_option keys [] (field "plugins" f).

Definition rule_names (f : value) : list string :=
  from_option keys [] (field "rules" f).

(** The setting a fragment gives to rule [r], if it has one. *)
Definition rule_setting (f : value) (r : string) : option value :=
  field "rules" f ≫= field r.

(** The plugin namespace of a rule name: the text before its last [/];
    a name without [/] belongs to no plugin. *)
Fixpoint plugin_of (r : string) : option string :=
  match r with
  | EmptyString => None
  | String c r' =>
      match plugin_of r' with
      | Some p => Some (String c p)
      | None => if Ascii.eqb c "/"%char then Some EmptyString else None
      end
  end.

Definition rule_declared (seen : gset string) (r : string) : bool :=
  match plugin_of r with
  | Some p => bool_decide (p ∈ seen)
  | None => true
  end.

(** The condition the specification puts on a plan, as a check: every
    namespaced rule of every fragment names a plugin declared by the same
    fragment or by an earlier one ([seen] holds the plugins declared
    before the plan starts). *)
Fixpoint plugins_declared (seen : gset string) (plan : list value) : bool :=
  match plan with
  | [] => true
  | f :: rest =>
      let seen' := list_to_set (plugin_names f) ∪ seen in
      forallb (rule_declared seen') (rule_names f) && plugins_declared seen' rest
  end.


(** ** Glob patterns *)

Module Glob.

(** Modelled from the spec: the glob matcher belongs to the external
    linting engine and is not in the repository; the specification only
    speaks of glob patterns.  The definitions below give the pattern forms
    the configuration uses their usual reading: [*] is any run of
    characters other than [/], a leading or inner [**/] is any number of
    directories, [{a,b}] is one of the listed alternatives, any other
    character stands for itself, and a pattern that ends in [/] names a
    directory and matches every path below it. *)
Inductive token : Type :=
| Lit (c : ascii)
| Star
| GlobStar
| Alt (alts : list string)
| Rest.

(** Modelled from the spec: the glob syntax (no matcher is in the
    repository).  [tokens s open] are the tokens of [s]; [open] holds the
    alternatives read so far while inside braces (finished ones, most
    recent first, and the one being read). *)
Fixpoint tokens (s : string) (open : option (list string * string))
  : list token :=
  match s with
  | EmptyString => []
  | String c s' =>
      match open with
      | Some (done, cur) =>
          if Ascii.eqb c "}"%char then Alt (rev (cur :: done)) :: tokens s' None
          else if Ascii.eqb c ","%char then tokens s' (Some (cur :: done, EmptyString))
          else tokens s' (Some (done, cur +:+ String c EmptyString))
      | None =>
          if Ascii.eqb c "{"%char then tokens s' (Some ([], EmptyString))
          else if Ascii.eqb c "*"%char then
            match s' with
            | String "*"%char (String "/"%char s'') => GlobStar :: tokens s'' None
            | _ => Star :: tokens s' None
            end
          else Lit c :: tokens s' None
      end
  end.

Fixpoint last_char (s : string) : option ascii :=
  match s with
  | EmptyString => None
  | String c s' => Some (default c (last_char s'))
  end.

(** Modelled from the spec: a glob that ends in [/] names a directory (no
    matcher is in the repository). *)
Definition is_directory (pattern : string) : bool :=
  bool_decide (last_char pattern = Some "/"%char).

(** Modelled from the spec: the tokens of a glob, a directory pattern
    reaching everything below the directory (no matcher is in the
    repository). *)
Definition compile (pattern : string) : list token :=
  tokens pattern None ++ (if is_directory pattern then [Rest] else []).

Fixpoint strip_prefix (a s : string) : option string :=
  match a, s with
  | EmptyString, _ => Some s
  | String c a', String d s' => if Ascii.eqb c d then strip_prefix a' s' else None
  | String _ _, EmptyString => None
  end.

(** Modelled from the spec: matching a path against the tokens of a glob
    (no matcher is in the repository); each token reads as described at
    [token]. *)
Fixpoint tokens_match (ts : list token) : string → bool :=
  match ts with
  | [] => fun s => bool_decide (s = EmptyString)
  | Lit c :: ts' => fun s =>
      match s with
      | String d s' => Ascii.eqb c d && tokens_match ts' s'
      | EmptyString => false
      end
  | Star :: ts' =>
      fix star (s : string) : bool :=
        tokens_match ts' s ||
        match s with
        | String d s' => negb (Ascii.eqb d "/"%char) && star s'
        | EmptyString => false
        end
  | GlobStar :: ts' => fun s =>
      tokens_match ts' s ||
      (fix skip (s : string) : bool :=
         match s with
         | String d s' => (Ascii.eqb d "/"%char && tokens_match ts' s') || skip s'
         | EmptyString => false
         end) s
  | Alt alts :: ts' => fun s =>
      existsb
        (fun a => from_option (tokens_match ts') false (strip_prefix a s))
        alts
  | Rest :: _ => fun _ => true
  end.

(** Modelled from the spec: whether a glob pattern matches a path (no
    matcher is in the repository). *)
Definition glob_match (pattern path : string) : bool :=
  tokens_match (compile pattern) path.

End Glob.
Export Glob.

(** ** The linting engine *)

Section Engine.

(** The engine is parametric in the glob matcher: [glob pattern path]. *)
Variable glob : string → string → bool.

(** The linting engine is an external collaborator and is not in the
    repository; the definitions of this section follow the specification.
    The engine walks the plan for a file: fragments whose only key is
    [ignores] exclude the files they match whatever their position; of the
    other fragments those whose [files]/[ignores] scope includes the file
    apply (a fragment with neither key applies to every file); the [rules]
    maps of the applying fragments are merged in plan order, later entries
    overriding earlier ones keyed by rule name. *)

(** Modelled from the spec: the glob patterns of a [files] or [ignores]
    value (the engine is not in the repository). *)
Definition patterns (v : value) : list string :=
  match v with
  | VArr vs => omap (fun p => match p with VStr s => Some s | _ => None end) vs
  | _ => []
  end.

(** Modelled from the spec: a path is matched by a pattern set when one
    of its globs matches it (the engine is not in the repository). *)
Definition matches_any (pats : value) (path : string) : bool :=
  existsb (fun p => glob p path) (patterns pats).

(** Modelled from the spec: "a fragment whose only key is [ignores]" (the
    engine is not in the repository). *)
Definition ignores_only (f : value) : bool :=
  match f with
  | VObj [(k, _)] => String.eqb k "ignores"
  | _ => false
  end.

(** Modelled from the spec: the fragment has an [ignores] set that
    matches the path (the engine is not in the repository). *)
Definition ignores_path (f : value) (path : string) : bool :=
  from_option (fun pats => matches_any pats path) false (field "ignores" f).

(** Modelled from the spec: "[ignores]-only fragments apply globally
    regardless of position" (the engine is not in the repository). *)
Definition excluded (plan : list value) (path : string) : bool :=
  existsb (fun f => ignores_only f && ignores_path f path) plan.

(** Modelled from the spec: the [files]/[ignores] scope of a fragment
    includes the file; "a fragment with neither [files] nor [ignores] is
    treated as applying to all files" (the engine is not in the
    repository). *)
Definition in_scope (f : value) (path : string) : bool :=
  from_option (fun pats => matches_any pats path) true (field "files" f)
  && negb (ignores_path f path).

(** Modelled from the spec: the engine "filters the EvaluationPlan to
    fragments whose [files]/[ignores] scope includes that file" (the
    engine is not in the repository). *)
Definition applicable (plan : list value) (path : string) : list value :=
  List.filter (fun f => in_scope f path) plan.

(** Modelled from the spec: the [rules] map of a fragment as a finite map
    (the engine is not in the repository). *)
Definition rules_of (f : value) : gmap string value :=
  match field "rules" f with
  | Some (VObj rs) => list_to_map rs
  | _ => ∅
  end.

(** Modelled from the spec: the engine "merges their [rules] maps in
    order (later entries override earlier entries keyed by rule name)"
    (the engine is not in the repository). *)
Definition merged_rules (frags : list value) : gmap string value :=
  foldl (fun acc f => rules_of f ∪ acc) ∅ frags.

Inductive verdict : Type :=
| Excluded
| Evaluated (rules : gmap string value).

(** Modelled from the spec: what the engine does with one file, either
    excluded from evaluation or evaluated under the merged rules (the
    engine is not in the repository). *)
Definition evaluate (plan : list value) (path : string) : verdict :=
  if excluded plan path then Excluded
  else Evaluated (merged_rules (applicable plan path)).

(** Modelled from the spec: "the engine's effective severity for [r] on
    [f]" (the engine is not in the repository). *)
Definition effective_severity (plan : list value) (path r : string)
  : option value :=
  match evaluate plan path with
  | Excluded => None
  | Evaluated rs => rs !! r
  end.


End Engine.

(** ** The module over a store of objects

    The same evaluation with objects as they are in JavaScript: cells of
    a store, reached through references, so that an array or an object
    reached twice is one shared cell.  Literals allocate fresh cells and
    read the cells of the values they spread. *)

Module Store.

Definition loc : Type := positive.

Inductive ref : Type :=
| RUndefined
| RStr (s : string)
| ROpaque (tag : string)
| RLoc (l : loc).

Inductive cell : Type :=
| CArr (items : list ref)
| CObj (props : list (string * ref)).

Abbreviation store := (gmap loc cell).

(** A computation reads and extends the store and returns a reference or
    throws. *)
Definition M (A : Type) : Type := store → result A * store.

#[global] Instance M_ret : MRet M := fun _ a σ => (Ok a, σ).
#[global] Instance M_bind : MBind M := fun _ _ k m σ =>
  match m σ with
  | (Ok a, σ') => k a σ'
  | (Throw e, σ') => (Throw e, σ')
  end.

(** A new object: a cell at a location the store does not use yet.  (A
    literal's own cell is allocated here once its parts are evaluated;
    which location it gets cannot be observed.) *)
Definition alloc (c : cell) : M ref := fun σ =>
  let l := fresh (dom σ) in (Ok (RLoc l), <[l := c]> σ).

(** Reads do not change the store.  A location always holds a cell in
    JavaScript; a reference to a location without one reads as a value
    with no property. *)
Definition member (r : ref) (k : string) : M ref := fun σ =>
  match r with
  | RUndefined => (Throw TypeError, σ)
  | RLoc l =>
      match σ !! l with
      | Some (CObj ps) => (Ok (default RUndefined (obj_get k ps)), σ)
      | _ => (Ok RUndefined, σ)
      end
  | RStr _ | ROpaque _ => (Ok RUndefined, σ)
  end.

Fixpoint read (r : ref) (ks : list string) : M ref :=
  match ks with
  | [] => mret r
  | k :: ks' => r' ← member r k; read r' ks'
  end.

Definition own_props (r : ref) : M (list (string * ref)) := fun σ =>
  match r with
  | RLoc l =>
      match σ !! l with
      | Some (CObj ps) => (Ok ps, σ)
      | Some (CArr rs) => (Ok (indexed 0 rs), σ)
      | None => (Ok [], σ)
      end
  | RStr s => (Ok (indexed 0 (RStr <$> chars s)), σ)
  | RUndefined | ROpaque _ => (Ok [], σ)
  end.

Definition iterate (r : ref) : M (list ref) := fun σ =>
  match r with
  | RLoc l =>
      match σ !! l with
      | Some (CArr rs) => (Ok rs, σ)
      | _ => (Throw TypeError, σ)
      end
  | RStr s => (Ok (RStr <$> chars s), σ)
  | RUndefined | ROpaque _ => (Throw TypeError, σ)
  end.

(** Properties and elements carry the expressions that compute them;
    they are evaluated in the order the literal lists them. *)
Inductive property : Type :=
| Field (k : string) (e : M ref)
| SpreadField (e : M ref).

Fixpoint properties (ps : list property) (acc : list (string * ref))
  : M (list (string * ref)) :=
  match ps with
  | [] => mret acc
  | Field k e :: ps' => r ← e; properties ps' (obj_set k r acc)
  | SpreadField e :: ps' =>
      r ← e; kvs ← own_props r; properties ps' (foldl define acc kvs)
  end.

Definition object_literal (ps : list property) : M ref :=
  props ← properties ps []; alloc (CObj props).

Inductive element : Type :=
| Item (e : M ref)
| Spread (e : M ref).

Fixpoint elements (es : list element) : M (list ref) :=
  match es with
  | [] => mret []
  | Item e :: es' => r ← e; rest ← elements es'; mret (r :: rest)
  | Spread e :: es' =>
      r ← e; rs ← iterate r; rest ← elements es'; mret (rs ++ rest)
  end.

Definition array_literal (es : list element) : M ref :=
  rs ← elements es; alloc (CArr rs).

Definition str (s : string) : M ref := mret (RStr s).

(** Composition over the store: an array literal whose elements are
    values already at hand, kept or spliced. *)
Inductive entry : Type :=
| Keep (r : ref)
| Splice (r : ref).

Definition entry_element (e : entry) : element :=
  match e with
  | Keep r => Item (mret r)
  | Splice r => Spread (mret r)
  end.

Definition compose (es : list entry) : M ref :=
  array_literal (entry_element <$> es).

(** The default export, expression by expression. *)
Definition default_export (js typescript typescriptParser astro : ref)
  : M ref :=
  array_literal
    [ Item (read js ["configs"; "recommended"]);
      Item
        (object_literal
           [ Field "files"
               (array_literal [ Item (str "**/*.{js,mjs,cjs,ts,jsx,tsx}") ]);
             Field "languageOptions"
               (object_literal
                  [ Field "parser" (mret typescriptParser);
                    Field "parserOptions"
                      (object_literal
                         [ Field "ecmaVersion" (str "latest");
                           Field "sourceType" (str "module") ]) ]);
             Field "plugins"
               (object_literal [ Field "@typescript-eslint" (mret typescript) ]);
             Field "rules"
               (object_literal
                  [ SpreadField
                      (read typescript ["configs"; "recommended"; "rules"]) ]) ]);
      Spread (read astro ["configs"; "recommended"]);
      Item
        (object_literal
           [ Field "files" (array_literal [ Item (str "**/*.astro") ]);
             Field "rules"
               (object_literal
                  [ Field "astro/no-conflict-set-directives" (str "error");
                    Field "astro/no-unused-define-vars-in-style" (str "error") ]) ]);
      Item
        (object_literal
           [ Field "ignores"
               (array_literal
                  [ Item (str "dist/"); Item (str "node_modules/");
                    Item (str ".astro/") ]) ]) ].

Definition forallb2 {A B : Type} (f : A → B → bool)
  : list A → list B → bool :=
  fix all (xs : list A) (ys : list B) : bool :=
    match xs, ys with
    | [], [] => true
    | x :: xs', y :: ys' => f x y && all xs' ys'
    | _, _ => false
    end.

(** [represents σ v r]: in the store [σ] the reference [r] leads to the
    data [v]. *)
Fixpoint represents (σ : store) (v : value) (r : ref) : bool :=
  match v, r with
  | VUndefined, RUndefined => true
  | VStr s, RStr s' => String.eqb s s'
  | VOpaque t, ROpaque t' => String.eqb t t'
  | VArr vs, RLoc l =>
      match σ !! l with
      | Some (CArr rs) => forallb2 (represents σ) vs rs
      | _ => false
      end
  | VObj ps, RLoc l =>
      match σ !! l with
      | Some (CObj qs) =>
          forallb2
            (fun p q => String.eqb p.1 q.1 && represents σ p.2 q.2) ps qs
      | _ => false
      end
  | _, _ => false
  end.

Definition represents_all (σ : store) (vs : list value) (rs : list ref)
  : Prop :=
  Forall2 (fun v r => represents σ v r = true) vs rs.

Definition represents_props (σ : store) (ps : list (string * value))
    (qs : list (string * ref)) : Prop :=
  Forall2 (fun p q => p.1 = q.1 ∧ represents σ p.2 q.2 = true) ps qs.

(** The outcome of a run matches a pure outcome: the same error, or
    results related by [R] in the final store. *)
Definition agrees {A B : Type} (R : store → B → A → Prop) (σ : store)
    (out : result A) (pure : result B) : Prop :=
  match out, pure with
  | Ok a, Ok b => R σ b a
  | Throw e, Throw e' => e = e'
  | _, _ => False
  end.

(** [extends m]: running [m] leaves every cell of the store as it was. *)
Definition extends {A : Type} (m : M A) : Prop :=
  ∀ σ, σ ⊆ (m σ).2.

(** [refines R σ0 m pure]: from any store that extends [σ0], the run of
    [m] only extends the store and its outcome matches [pure]. *)
Definition refines {A B : Type} (R : store → B → A → Prop) (σ0 : store)
    (m : M A) (pure : result B) : Prop :=
  ∀ σ, σ0 ⊆ σ → σ ⊆ (m σ).2 ∧ agrees R (m σ).2 (m σ).1 pure.

End Store.

(** ** The default export, expression by expression

    The pure evaluation again, with every sub-expression in its place in
    the literal (the three property chains are read where the source
    reads them).  [default_export] above reads them first; the two agree
    (lemma [default_export_in_place]). *)

Module InPlace.

Inductive property : Type :=
| Field (k : string) (e : result value)
| SpreadField (e : result value).

Fixpoint properties (ps : list property) (acc : list (string * value))
  : result (list (string * value)) :=
  match ps with
  | [] => Ok acc
  | Field k e :: ps' => v ← e; properties ps' (obj_set k v acc)
  | SpreadField e :: ps' =>
      v ← e; properties ps' (foldl define acc (own_props v))
  end.

Definition object_literal (ps : list property) : result value :=
  props ← properties ps []; Ok (VObj props).

Inductive element : Type :=
| Item (e : result value)
| Spread (e : result value).

Fixpoint elements (es : list element) : result (list value) :=
  match es with
  | [] => Ok []
  | Item e :: es' => v ← e; rest ← elements es'; Ok (v :: rest)
  | Spread e :: es' =>
      v ← e; vs ← iterate v; rest ← elements es'; Ok (vs ++ rest)
  end.

Definition array_literal (es : list element) : result value :=
  vs ← elements es; Ok (VArr vs).

Definition str (s : string) : result value := Ok (VStr s).

Definition default_export (js typescript typescriptParser astro : value)
  : result value :=
  array_literal
    [ Item (read js ["configs"; "recommended"]);
      Item
        (object_literal
           [ Field "files"
               (array_literal [ Item (str "**/*.{js,mjs,cjs,ts,jsx,tsx}") ]);
             Field "languageOptions"
               (object_literal
                  [ Field "parser" (Ok typescriptParser);
                    Field "parserOptions"
                      (object_literal
                         [ Field "ecmaVersion" (str "latest");
                           Field "sourceType" (str "module") ]) ]);
             Field "plugins"
               (object_literal [ Field "@typescript-eslint" (Ok typescript) ]);
             Field "rules"
               (object_literal
                  [ SpreadField
                      (read typescript ["configs"; "recommended"; "rules"]) ]) ]);
      Spread (read astro ["configs"; "recommended"]);
      Item
        (object_literal
           [ Field "files" (array_literal [ Item (str "**/*.astro") ]);
             Field "rules"
               (object_literal
                  [ Field "astro/no-conflict-set-directives" (str "error");
                    Field "astro/no-unused-define-vars-in-style" (str "error") ]) ]);
      Item
        (object_literal
           [ Field "ignores"
               (array_literal
                  [ Item (str "dist/"); Item (str "node_modules/");
                    Item (str ".astro/") ]) ]) ].

End InPlace.

(** How the store-level literals are compared with the pure ones. *)
Module Refinement.

Definition leads_to (σ : Store.store) (v : value) (r : Store.ref) : Prop :=
  Store.represents σ v r = true.

Definition property_refines (σ0 : Store.store) (q : Store.property)
    (p : InPlace.property) : Prop :=
  match q, p with
  | Store.Field k e, InPlace.Field k' e' =>
      k = k' ∧ Store.refines leads_to σ0 e e'
  | Store.SpreadField e, InPlace.SpreadField e' =>
      Store.refines leads_to σ0 e e'
  | _, _ => False
  end.

Definition element_refines (σ0 : Store.store) (q : Store.element)
    (p : InPlace.element) : Prop :=
  match q, p with
  | Store.Item e, InPlace.Item e' | Store.Spread e, InPlace.Spread e' =>
      Store.refines leads_to σ0 e e'
  | _, _ => False
  end.

Definition entry_represents (σ : Store.store) (e : element)
    (q : Store.entry) : Prop :=
  match e, q with
  | Item v, Store.Keep r | Spread v, Store.Splice r => leads_to σ v r
  | _, _ => False
  end.

Definition in_place (e : element) : InPlace.element :=
  match e with
  | Item v => InPlace.Item (Ok v)
  | Spread v => InPlace.Spread (Ok v)
  end.

Definition property_expr (q : Store.property) : Store.M Store.ref :=
  match q with
  | Store.Field _ e | Store.SpreadField e => e
  end.

Definition element_expr (q : Store.element) : Store.M Store.ref :=
  match q with
  | Store.Item e | Store.Spread e => e
  end.

End Refinement.

(** ** Successful runs

    [yields m σ Q]: from the store [σ] the computation [m] returns, it
    only extends the store, and its result and the store it leaves
    satisfy [Q]. *)

Module Run.

Definition yields {A : Type} (m : Store.M A) (σ : Store.store)
    (Q : A → Store.store → Prop) : Prop :=
  ∃ a σ', m σ = (Ok a, σ') ∧ σ ⊆ σ' ∧ Q a σ'.

End Run.

(** ** Sample packages

    Small stand-ins for the four imported packages, on which the model
    can be run. *)

Module Sample.

Definition js : value :=
  VObj [("configs",
         VObj [("recommended",
                VObj [("rules", VObj [("no-undef", VStr "error");
                                      ("no-unused-vars", VStr "error")])])])].

Definition typescript : value :=
  VObj [("configs",
         VObj [("recommended",
                VObj [("rules",
                       VObj [("@typescript-eslint/no-unused-vars", VStr "error");
                             ("@typescript-eslint/no-explicit-any", VStr "error")])])])].

Definition typescriptParser : value := VOpaque "@typescript-eslint/parser".

Definition astro : value :=
  VObj [("configs",
         VObj [("recommended",
                VArr [ VObj [("plugins", VObj [("astro", VOpaque "eslint-plugin-astro")])];
                       VObj [("files", VArr [VStr "**/*.astro"]);
                             ("rules", VObj [("astro/no-set-html-directive", VStr "off")])];
                       VObj [("rules", VObj [("astro/valid-compile", VStr "error")])] ])])].


(** The same four packages as objects of a store. *)
Definition store : gmap Store.loc Store.cell :=
  list_to_map
    [ (10%positive, Store.CObj [("no-undef", Store.RStr "error");
                                ("no-unused-vars", Store.RStr "error")]);
      (11%positive, Store.CObj [("rules", Store.RLoc 10%positive)]);
      (12%positive, Store.CObj [("recommended", Store.RLoc 11%positive)]);
      (13%positive, Store.CObj [("configs", Store.RLoc 12%positive)]);
      (20%positive,
       Store.CObj [("@typescript-eslint/no-unused-vars", Store.RStr "error");
                   ("@typescript-eslint/no-explicit-any", Store.RStr "error")]);
      (21%positive, Store.CObj [("rules", Store.RLoc 20%positive)]);
      (22%positive, Store.CObj [("recommended", Store.RLoc 21%positive)]);
      (23%positive, Store.CObj [("configs", Store.RLoc 22%positive)]);
      (30%positive, Store.CObj [("astro", Store.ROpaque "eslint-plugin-astro")]);
      (31%positive, Store.CObj [("plugins", Store.RLoc 30%positive)]);
      (32%positive, Store.CArr [Store.RStr "**/*.astro"]);
      (33%positive,
       Store.CObj [("astro/no-set-html-directive", Store.RStr "off")]);
      (34%positive, Store.CObj [("files", Store.RLoc 32%positive);
                                ("rules", Store.RLoc 33%positive)]);
      (35%positive, Store.CObj [("astro/valid-compile", Store.RStr "error")]);
      (36%positive, Store.CObj [("rules", Store.RLoc 35%positive)]);
      (37%positive, Store.CArr [Store.RLoc 31%positive; Store.RLoc 34%positive; Store.RLoc 36%positive]);
      (38%positive, Store.CObj [("recommended", Store.RLoc 37%positive)]);
      (39%positive, Store.CObj [("configs", Store.RLoc 38%positive)]) ].

Definition plan : list value :=
  Eval vm_compute in
    match default_export js typescript typescriptParser astro with
    | Ok plan => plan
    | Throw _ => []
    end.

End Sample.

(** * Properties *)

(** ** Running the model *)

Example read_missing_package_entry :
  read (VObj [("configs", VObj [])]) ["configs"; "recommended"] = Ok VUndefined
  ∧ read (VObj []) ["configs"; "recommended"] = Throw TypeError.
Proof. by split. Qed.

Example spread_of_a_string :
  compose [Spread (VStr "ab"); Item (VStr "c")]
  = Ok [VStr "a"; VStr "b"; VStr "c"].
Proof. reflexivity. Qed.

Example spread_of_an_object_throws :
  compose [Item (VObj []); Spread (VObj [])] = Throw TypeError.
Proof. reflexivity. Qed.

Example object_spread_overrides :
  object_literal
    [ Field "no-undef" (VStr "warn");
      SpreadField (VObj [("no-undef", VStr "error"); ("eqeqeq", VStr "warn")]) ]
  = VObj [("no-undef", VStr "error"); ("eqeqeq", VStr "warn")].
Proof. reflexivity. Qed.

Example export_without_astro_bundle :
  default_export Sample.js Sample.typescript Sample.typescriptParser
    (VObj [("configs", VObj [])])
  = Throw TypeError.
Proof. reflexivity. Qed.

Example sample_plan_length : length Sample.plan = 7.
Proof. reflexivity. Qed.

Example glob_examples :
  glob_match "**/*.ts" "a.ts" = true
  ∧ glob_match "**/*.ts" "src/lib/a.ts" = true
  ∧ glob_match "**/*.ts" "a.js" = false
  ∧ glob_match "*.ts" "src/a.ts" = false
  ∧ glob_match "**/*.{js,mjs,cjs,ts,jsx,tsx}" "src/pages/index.tsx" = true
  ∧ glob_match "**/*.astro" "src/pages/index.astro" = true
  ∧ glob_match "dist/" "dist/assets/app.js" = true
  ∧ glob_match "dist/" "src/dist.js" = false.
Proof. by repeat split. Qed.

Example sample_plan_on_files :
  effective_severity glob_match Sample.plan "src/a.ts"
    "@typescript-eslint/no-unused-vars" = Some (VStr "error")
  ∧ effective_severity glob_match Sample.plan "src/pages/index.astro"
      "@typescript-eslint/no-unused-vars" = None
  ∧ effective_severity glob_match Sample.plan "src/pages/index.astro"
      "astro/no-conflict-set-directives" = Some (VStr "error")
  ∧ evaluate glob_match Sample.plan "dist/index.js" = Excluded.
Proof. by vm_compute. Qed.

Example sample_plan_in_store :
  (Store.default_export (Store.RLoc 13%positive) (Store.RLoc 23%positive)
     (Store.ROpaque "@typescript-eslint/parser") (Store.RLoc 39%positive)
     Sample.store).1
  = Ok (Store.RLoc 51%positive).
Proof. by vm_compute. Qed.

(** ** Composition *)

Section Composition.

Implicit Types (v f : value) (vs plan : list value) (e : element)
  (es : list element).

Lemma compose_cons e es :
  compose (e :: es) =
    (vs ← element_values e; rest ← compose es; Ok (vs ++ rest)).
Proof. reflexivity. Qed.

Lemma compose_item v es plan :
  compose es = Ok plan → compose (Item v :: es) = Ok (v :: plan).
Proof. intros H. rewrite compose_cons, H. reflexivity. Qed.

Lemma compose_spread vs es plan :
  compose es = Ok plan → compose (Spread (VArr vs) :: es) = Ok (vs ++ plan).
Proof. intros H. rewrite compose_cons, H. reflexivity. Qed.

Lemma compose_app es1 es2 plan1 plan2 :
  compose es1 = Ok plan1 → compose es2 = Ok plan2 →
  compose (es1 ++ es2) = Ok (plan1 ++ plan2).
Proof.
  revert plan1. induction es1 as [|e es1 IH]; intros plan1 H1 H2.
  - injection H1 as <-. exact H2.
  - rewrite compose_cons in H1. change ((e :: es1) ++ es2) with (e :: (es1 ++ es2)).
    rewrite compose_cons.
    destruct (element_values e) as [vs|err]; [|discriminate].
    simpl in *. destruct (compose es1) as [rest|err]; [|discriminate].
    simpl in H1. injection H1 as <-.
    rewrite (IH rest eq_refl H2). simpl. by rewrite (assoc_L (++)).
Qed.

Lemma flatten_all_cons v vs :
  flatten_all (v :: vs) = flatten v ++ flatten_all vs.
Proof. reflexivity. Qed.

Lemma flatten_fragment v : is_array v = false → flatten v = [v].
Proof. by destruct v. Qed.

Lemma flatten_all_flat plan : flat plan = true → flatten_all plan = plan.
Proof.
  induction plan as [|v plan IH]; [done|].
  intros [Hv Hplan]%andb_prop. rewrite flatten_all_cons, IH by done.
  rewrite flatten_fragment; [done|]. by destruct (is_array v).
Qed.

Lemma flat_app plan1 plan2 :
  flat (plan1 ++ plan2) = flat plan1 && flat plan2.
Proof. apply forallb_app. Qed.

Lemma flatten_entries_flat es :
  forallb fragment_entry es = true →
  flat (flatten_all (element_value <$> es)) = true.
Proof.
  induction es as [|e es IH]; [done|].
  intros [He Hes]%andb_prop. rewrite fmap_cons, flatten_all_cons, flat_app.
  rewrite (IH Hes), andb_true_r.
  destruct e as [v|v]; simpl in *.
  - rewrite flatten_fragment; [by simpl; rewrite He|]. by destruct (is_array v).
  - destruct v as [| | |vs|]; try discriminate.
    change (flatten (VArr vs)) with (flatten_all vs).
    by rewrite (flatten_all_flat vs He).
Qed.

Lemma compose_flatten es :
  forallb fragment_entry es = true →
  compose es = Ok (flatten_all (element_value <$> es)).
Proof.
  induction es as [|e es IH]; [done|].
  intros [He Hes]%andb_prop. specialize (IH Hes).
  rewrite fmap_cons, flatten_all_cons.
  destruct e as [v|v]; simpl in He.
  - rewrite (compose_item _ _ _ IH). simpl element_value.
    rewrite flatten_fragment; [done|]. by destruct (is_array v).
  - destruct v as [| | |vs|]; try discriminate.
    rewrite (compose_spread _ _ _ IH). simpl element_value.
    change (flatten (VArr vs)) with (flatten_all vs).
    by rewrite (flatten_all_flat vs He).
Qed.

Lemma compose_items plan : compose (Item <$> plan) = Ok plan.
Proof.
  induction plan as [|v plan IH]; [done|].
  rewrite fmap_cons. by apply compose_item.
Qed.

(** A spread never reaches below the first level: an array found inside
    a spread array stays an element of the result. *)
Lemma compose_one_level vs :
  compose [Spread (VArr vs)] = Ok vs.
Proof. unfold compose. simpl. by rewrite (right_id_L [] (++)). Qed.

End Composition.

(** ** The exported plan *)

Section ExportedPlan.

Implicit Types (js typescript typescriptParser astro : value)
  (plan bundle : list value).

(** The shape of the exported plan: whatever the packages export, a
    successful evaluation yields the [js] recommended fragment, the
    TypeScript fragment, the elements of the [astro] bundle, and the two
    local fragments, in that order. *)
Lemma default_export_shape js typescript typescriptParser astro plan :
  default_export js typescript typescriptParser astro = Ok plan →
  ∃ js_recommended ts_rules astro_recommended bundle,
    read js ["configs"; "recommended"] = Ok js_recommended
    ∧ read typescript ["configs"; "recommended"; "rules"] = Ok ts_rules
    ∧ read astro ["configs"; "recommended"] = Ok astro_recommended
    ∧ iterate astro_recommended = Ok bundle
    ∧ plan = js_recommended
             :: ts_fragment typescript typescriptParser ts_rules
             :: bundle ++ [astro_fragment; ignores_fragment].
Proof.
  unfold default_export. intros H.
  destruct (read js _) as [jr|] eqn:Ejs; [|discriminate].
  destruct (read typescript _) as [rs|] eqn:Ets; [|discriminate].
  destruct (read astro _) as [ar|] eqn:Eastro; [|discriminate].
  change (compose
            [ Item jr; Item (ts_fragment typescript typescriptParser rs);
              Spread ar; Item astro_fragment; Item ignores_fragment ]
          = Ok plan) in H.
  unfold compose in H. simpl in H.
  destruct (iterate ar) as [bundle|] eqn:Eiter; [|discriminate].
  simpl in H. injection H as <-. by exists jr, rs, ar, bundle.
Qed.

(** Conversely, the export succeeds as soon as the three property chains
    can be read and the [astro] bundle is iterable. *)
Lemma default_export_ok js typescript typescriptParser astro
    js_recommended ts_rules astro_recommended bundle :
  read js ["configs"; "recommended"] = Ok js_recommended →
  read typescript ["configs"; "recommended"; "rules"] = Ok ts_rules →
  read astro ["configs"; "recommended"] = Ok astro_recommended →
  iterate astro_recommended = Ok bundle →
  default_export js typescript typescriptParser astro
  = Ok (js_recommended
          :: ts_fragment typescript typescriptParser ts_rules
          :: bundle ++ [astro_fragment; ignores_fragment]).
Proof.
  intros Hjs Hts Hastro Hiter. unfold default_export.
  rewrite Hjs, Hts, Hastro.
  change (compose
            [ Item js_recommended;
              Item (ts_fragment typescript typescriptParser ts_rules);
              Spread astro_recommended; Item astro_fragment;
              Item ignores_fragment ]
          = Ok (js_recommended
                  :: ts_fragment typescript typescriptParser ts_rules
                  :: bundle ++ [astro_fragment; ignores_fragment])).
  unfold compose. simpl. by rewrite Hiter.
Qed.

End ExportedPlan.

(** ** Property chains *)

Section Chains.

Implicit Types (v : value) (k : string) (ks : list string).

Lemma member_throws v k e :
  member v k = Throw e → v = VUndefined ∧ e = TypeError.
Proof. destruct v; simpl; intros H; inversion H; done. Qed.

Lemma read_throws v ks e : read v ks = Throw e → e = TypeError.
Proof.
  revert v. induction ks as [|k ks IH]; intros v; simpl; [done|].
  destruct (member v k) as [v'|e'] eqn:Hm; simpl; [apply IH|].
  intros [= <-]. by apply member_throws in Hm as [_ ->].
Qed.

Lemma read_app v ks1 ks2 :
  read v (ks1 ++ ks2) = (v' ← read v ks1; read v' ks2).
Proof.
  revert v. induction ks1 as [|k ks1 IH]; intros v; simpl; [done|].
  destruct (member v k); simpl; [apply IH|done].
Qed.

Lemma iterate_throws v e : iterate v = Throw e → e = TypeError.
Proof. destruct v; simpl; intros H; inversion H; done. Qed.

End Chains.

(** An array nested two levels deep: the spread removes the outer level
    only, so the result still holds an array and is not the depth-first
    flatten of the input. *)
Lemma compose_keeps_deeper_arrays :
  let fragment := VObj [("rules", VObj [("no-undef", VStr "error")])] in
  let es := [Spread (VArr [VArr [fragment]])] in
  compose es = Ok [VArr [fragment]]
  ∧ flat [VArr [fragment]] = false
  ∧ flatten_all (element_value <$> es) = [fragment]
  ∧ compose es ≠ Ok (flatten_all (element_value <$> es)).
Proof. repeat split; try reflexivity. discriminate. Qed.

(** C1 (as the code has it): [compose] splices every spread array in
    place, one level deep, and keeps every other element; the elements of
    a spread array are taken as they are.  For every input sequence made
    of fragments and of arrays of fragments (the arrays written as spread
    elements, as [...astro.configs.recommended] is) the result is the
    sequence a left-to-right, depth-first flatten of the input yields: a
    flat sequence with the same elements in the same order, nothing
    dropped, merged or deduplicated.  So for the exported configuration:
    it is the flatten of the recommended [js] fragment, the TypeScript
    fragment, the [astro] bundle and the two local fragments. *)
Theorem compose_order_preservation :
  (∀ es : list element,
      forallb fragment_entry es = true →
      compose es = Ok (flatten_all (element_value <$> es))
      ∧ flat (flatten_all (element_value <$> es)) = true)
  ∧ (∀ (vs : list value) (es : list element),
      compose (Spread (VArr vs) :: es) = (rest ← compose es; Ok (vs ++ rest)))
  ∧ (∀ (js typescript typescriptParser astro js_recommended ts_rules : value)
       (bundle : list value),
      read js ["configs"; "recommended"] = Ok js_recommended →
      read typescript ["configs"; "recommended"; "rules"] = Ok ts_rules →
      read astro ["configs"; "recommended"] = Ok (VArr bundle) →
      is_array js_recommended = false →
      flat bundle = true →
      default_export js typescript typescriptParser astro
      = Ok (flatten_all
              [ js_recommended;
                ts_fragment typescript typescriptParser ts_rules;
                VArr bundle; astro_fragment; ignores_fragment ])).
Proof.
  split; [|split].
  - intros es Hes. split; [by apply compose_flatten|].
    by apply flatten_entries_flat.
  - reflexivity.
  - intros js typescript typescriptParser astro jr rs bundle
      Hjs Hts Hastro Hjr Hbundle.
    unfold default_export. rewrite Hjs, Hts, Hastro.
    change (compose
              [ Item jr; Item (ts_fragment typescript typescriptParser rs);
                Spread (VArr bundle); Item astro_fragment;
                Item ignores_fragment ]
            = Ok (flatten_all
                    (element_value <$>
                       [ Item jr;
                         Item (ts_fragment typescript typescriptParser rs);
                         Spread (VArr bundle); Item astro_fragment;
                         Item ignores_fragment ]))).
    apply compose_flatten. unfold flat in Hbundle.
    cbn [forallb fragment_entry]. by rewrite Hjr, Hbundle.
Qed.

Lemma compose_order_preservation_witness :
  compose
    [ Item (VObj [("rules", VObj [("no-undef", VStr "error")])]);
      Spread (VArr [VObj [("files", VArr [VStr "**/*.astro"])];
                    VObj [("rules", VObj [("no-undef", VStr "off")])];
                    VObj [("rules", VObj [("no-undef", VStr "error")])]]);
      Item (VObj [("ignores", VArr [VStr "dist/"])]) ]
  = Ok [ VObj [("rules", VObj [("no-undef", VStr "error")])];
         VObj [("files", VArr [VStr "**/*.astro"])];
         VObj [("rules", VObj [("no-undef", VStr "off")])];
         VObj [("rules", VObj [("no-undef", VStr "error")])];
         VObj [("ignores", VArr [VStr "dist/"])] ]
  ∧ default_export Sample.js Sample.typescript Sample.typescriptParser
      Sample.astro
    = Ok Sample.plan.
Proof.
  split.
  - refine (proj1 (proj1 compose_order_preservation
      [ Item (VObj [("rules", VObj [("no-undef", VStr "error")])]);
        Spread (VArr [VObj [("files", VArr [VStr "**/*.astro"])];
                      VObj [("rules", VObj [("no-undef", VStr "off")])];
                      VObj [("rules", VObj [("no-undef", VStr "error")])]]);
        Item (VObj [("ignores", VArr [VStr "dist/"])]) ] eq_refl)).
  - exact (proj2 (proj2 compose_order_preservation)
             Sample.js Sample.typescript Sample.typescriptParser Sample.astro
             (VObj [("rules", VObj [("no-undef", VStr "error");
                                    ("no-unused-vars", VStr "error")])])
             (VObj [("@typescript-eslint/no-unused-vars", VStr "error");
                    ("@typescript-eslint/no-explicit-any", VStr "error")])
             [ VObj [("plugins", VObj [("astro", VOpaque "eslint-plugin-astro")])];
               VObj [("files", VArr [VStr "**/*.astro"]);
                     ("rules", VObj [("astro/no-set-html-directive", VStr "off")])];
               VObj [("rules", VObj [("astro/valid-compile", VStr "error")])] ]
             eq_refl eq_refl eq_refl eq_refl eq_refl).
Defined.

(** C5: composing an already flat plan (no element is an array) yields
    the same sequence, element for element and in the same order, and
    flattening it is a no-op; composing the exported plan again yields the
    exported plan. *)
Theorem compose_flat_idempotent :
  (∀ plan : list value,
      flat plan = true →
      compose (Item <$> plan) = Ok plan ∧ flatten_all plan = plan)
  ∧ (∀ (js typescript typescriptParser astro : value) (plan : list value),
      default_export js typescript typescriptParser astro = Ok plan →
      compose (Item <$> plan) = Ok plan).
Proof.
  split.
  - intros plan Hflat. split; [apply compose_items|by apply flatten_all_flat].
  - intros js typescript typescriptParser astro plan _. apply compose_items.
Qed.

Lemma compose_flat_idempotent_witness :
  (compose (Item <$> [astro_fragment; ignores_fragment])
   = Ok [astro_fragment; ignores_fragment]
   ∧ flatten_all [astro_fragment; ignores_fragment]
     = [astro_fragment; ignores_fragment])
  ∧ compose (Item <$> Sample.plan) = Ok Sample.plan.
Proof.
  split.
  - exact (proj1 compose_flat_idempotent
             [astro_fragment; ignores_fragment] eq_refl).
  - exact (proj2 compose_flat_idempotent Sample.js Sample.typescript
             Sample.typescriptParser Sample.astro Sample.plan eq_refl).
Defined.

(** C8: a plugin-provided array of three fragments followed by one local
    fragment composes to a plan of four fragments: the three of the array
    in their own order, then the local one.  In the exported
    configuration likewise: when [astro.configs.recommended] is an array
    of three fragments they stand in the plan, in their order, right
    before the local [astro] fragment. *)
Theorem compose_bundle_then_local (f1 f2 f3 : value) :
  let local :=
    object_literal
      [ Field "files" (VArr [VStr "**/*.astro"]);
        Field "rules"
          (object_literal
             [ Field "astro/no-conflict-set-directives" (VStr "error") ]) ] in
  (∃ plan,
      compose [Spread (VArr [f1; f2; f3]); Item local] = Ok plan
      ∧ plan = [f1; f2; f3; local]
      ∧ length plan = 4)
  ∧ (∀ js typescript typescriptParser astro js_recommended ts_rules : value,
      read js ["configs"; "recommended"] = Ok js_recommended →
      read typescript ["configs"; "recommended"; "rules"] = Ok ts_rules →
      read astro ["configs"; "recommended"] = Ok (VArr [f1; f2; f3]) →
      default_export js typescript typescriptParser astro
      = Ok [ js_recommended;
             ts_fragment typescript typescriptParser ts_rules;
             f1; f2; f3; astro_fragment; ignores_fragment ]).
Proof.
  intros local. split; [by exists [f1; f2; f3; local]|].
  intros js typescript typescriptParser astro jr rs Hjs Hts Hastro.
  by apply (default_export_ok js typescript typescriptParser astro
              jr rs (VArr [f1; f2; f3]) [f1; f2; f3]).
Qed.

Lemma compose_bundle_then_local_witness :
  default_export Sample.js Sample.typescript Sample.typescriptParser
    Sample.astro
  = Ok Sample.plan.
Proof.
  exact (proj2 (compose_bundle_then_local
                  (VObj [("plugins", VObj [("astro", VOpaque "eslint-plugin-astro")])])
                  (VObj [("files", VArr [VStr "**/*.astro"]);
                         ("rules", VObj [("astro/no-set-html-directive", VStr "off")])])
                  (VObj [("rules", VObj [("astro/valid-compile", VStr "error")])]))
           Sample.js Sample.typescript Sample.typescriptParser Sample.astro
           (VObj [("rules", VObj [("no-undef", VStr "error");
                                  ("no-unused-vars", VStr "error")])])
           (VObj [("@typescript-eslint/no-unused-vars", VStr "error");
                  ("@typescript-eslint/no-explicit-any", VStr "error")])
           eq_refl eq_refl eq_refl).
Defined.

(** ** The engine walking a plan *)

Section EngineFacts.

Variable glob : string → string → bool.

Implicit Types (f A B : value) (plan pre mid post : list value)
  (path r : string).

Lemma list_to_map_obj_get (ps : list (string * value)) r :
  (list_to_map ps : gmap string value) !! r = obj_get r ps.
Proof.
  induction ps as [|[k v] ps IH]; [done|].
  simpl. destruct (String.eqb_spec r k) as [->|Hne].
  - by rewrite lookup_insert_eq.
  - by rewrite lookup_insert_ne.
Qed.

Lemma rules_of_lookup f r : rules_of f !! r = rule_setting f r.
Proof.
  unfold rules_of, rule_setting.
  destruct (field "rules" f) as [[| | | |rs]|]; simpl; try done.
  apply list_to_map_obj_get.
Qed.

Lemma merge_step_unset (frags : list value) (acc : gmap string value) r :
  Forall (fun f => rule_setting f r = None) frags →
  foldl (fun acc f => rules_of f ∪ acc) acc frags !! r = acc !! r.
Proof.
  intros H. revert acc. induction H as [|f frags Hf _ IH]; intros acc; [done|].
  simpl. rewrite IH. apply lookup_union_r. by rewrite rules_of_lookup.
Qed.

(** Later entries override earlier ones: the merged setting of [r] is the
    one of the last fragment that sets it. *)
Lemma merged_rules_last (before after : list value) B r b :
  rule_setting B r = Some b →
  Forall (fun f => rule_setting f r = None) after →
  merged_rules (before ++ B :: after) !! r = Some b.
Proof.
  intros HB Hafter. unfold merged_rules. rewrite foldl_app. simpl.
  rewrite merge_step_unset by done.
  apply lookup_union_Some_l. by rewrite rules_of_lookup.
Qed.

Lemma merge_step_congr (frags : list value) (acc acc' : gmap string value) r :
  acc !! r = acc' !! r →
  foldl (fun acc f => rules_of f ∪ acc) acc frags !! r
  = foldl (fun acc f => rules_of f ∪ acc) acc' frags !! r.
Proof.
  revert acc acc'. induction frags as [|f frags IH]; intros acc acc' H; [done|].
  simpl. apply IH. by rewrite !lookup_union, H.
Qed.

(** What was merged before a fragment that sets [r] no longer counts. *)
Lemma merge_after_setter (frags : list value) (acc acc' : gmap string value)
    B r b :
  rule_setting B r = Some b →
  foldl (fun acc f => rules_of f ∪ acc) acc (B :: frags) !! r
  = foldl (fun acc f => rules_of f ∪ acc) acc' (B :: frags) !! r.
Proof.
  intros HB. simpl. apply merge_step_congr.
  by rewrite !lookup_union, rules_of_lookup, HB; destruct (acc !! r), (acc' !! r).
Qed.

(** A fragment with a [rules] map is no [ignores]-only fragment. *)
Lemma setter_not_ignores_only f r v :
  rule_setting f r = Some v → ignores_only f = false.
Proof.
  destruct f as [ | | | |[|[k v1] [|]]]; try done.
  unfold rule_setting, ignores_only, field. cbn [obj_get].
  destruct (String.eqb_spec "rules" k) as [<-|]; [done|]. by intros [=].
Qed.

Lemma applicable_app plan1 plan2 path :
  applicable glob (plan1 ++ plan2) path =
    applicable glob plan1 path ++ applicable glob plan2 path.
Proof. apply List.filter_app. Qed.

Lemma applicable_cons_in f plan path :
  in_scope glob f path = true →
  applicable glob (f :: plan) path = f :: applicable glob plan path.
Proof. intros H. unfold applicable. simpl. by rewrite H. Qed.


Lemma applicable_unset post path r :
  (∀ f, f ∈ post → in_scope glob f path = true → rule_setting f r = None) →
  Forall (fun f => rule_setting f r = None) (applicable glob post path).
Proof.
  intros H. apply Forall_forall. intros f Hf.
  unfold applicable in Hf. apply list_elem_of_In in Hf.
  apply List.filter_In in Hf as [Hin Hscope].
  apply H; [by apply list_elem_of_In|done].
Qed.

Lemma excluded_app plan1 plan2 path :
  excluded glob (plan1 ++ plan2) path =
    excluded glob plan1 path || excluded glob plan2 path.
Proof. apply existsb_app. Qed.

Lemma excluded_by_ignores pats path :
  matches_any glob pats path = true →
  excluded glob [VObj [("ignores", pats)]] path = true.
Proof. intros H. unfold excluded, ignores_path. simpl. by rewrite H. Qed.

End EngineFacts.

(** Two fragments [A] and [B] that both scope a file and both set a rule
    do not by themselves fix its effective severity: a third fragment
    after [B] that scopes the file and sets the rule overrides [B], and a
    global ignore that matches the file leaves the rule no severity at
    all. *)
Lemma override_superseded_by_later_fragment :
  let A := VObj [("rules", VObj [("no-unused-vars", VStr "warn")])] in
  let B := VObj [("files", VArr [VStr "**/*.ts"]);
                 ("rules", VObj [("no-unused-vars", VStr "error")])] in
  let C := VObj [("rules", VObj [("no-unused-vars", VStr "off")])] in
  let ignore := VObj [("ignores", VArr [VStr "dist/"])] in
  in_scope glob_match A "src/a.ts" = true
  ∧ in_scope glob_match B "src/a.ts" = true
  ∧ rule_setting A "no-unused-vars" = Some (VStr "warn")
  ∧ rule_setting B "no-unused-vars" = Some (VStr "error")
  ∧ effective_severity glob_match [A; B; C] "src/a.ts" "no-unused-vars"
    = Some (VStr "off")
  ∧ effective_severity glob_match [A; B; C] "src/a.ts" "no-unused-vars"
    ≠ rule_setting B "no-unused-vars"
  ∧ in_scope glob_match A "dist/a.ts" = true
  ∧ in_scope glob_match B "dist/a.ts" = true
  ∧ effective_severity glob_match [A; B; ignore] "dist/a.ts" "no-unused-vars"
    = None.
Proof. by vm_compute. Qed.

(** C2 (as the engine of the specification has it): when two fragments
    [A] (earlier) and [B] (later) of a plan both scope a file and both
    set rule [r], the later entry overrides the earlier one: [A]'s
    setting has no part in the effective severity of [r] (the plan
    without [A] gives the same).  The effective severity is [B]'s value
    when the file is linted and [B] is the last fragment in scope that
    sets [r]; a still later one overrides [B] in turn, and a file that a
    global ignore excludes has no effective severity. *)
Theorem override_law (glob : string → string → bool)
    (pre mid post : list value) (A B : value) (path r : string)
    (a b : value) :
  in_scope glob A path = true →
  in_scope glob B path = true →
  rule_setting A r = Some a →
  rule_setting B r = Some b →
  effective_severity glob (pre ++ A :: mid ++ B :: post) path r
  = effective_severity glob (pre ++ mid ++ B :: post) path r
  ∧ (excluded glob (pre ++ A :: mid ++ B :: post) path = false →
     (∀ f, f ∈ post → in_scope glob f path = true → rule_setting f r = None) →
     effective_severity glob (pre ++ A :: mid ++ B :: post) path r = Some b)
  ∧ (∀ post1 post2 C c,
       post = post1 ++ C :: post2 →
       excluded glob (pre ++ A :: mid ++ B :: post) path = false →
       in_scope glob C path = true →
       rule_setting C r = Some c →
       (∀ f, f ∈ post2 → in_scope glob f path = true → rule_setting f r = None) →
       effective_severity glob (pre ++ A :: mid ++ B :: post) path r = Some c)
  ∧ (excluded glob (pre ++ A :: mid ++ B :: post) path = true →
     effective_severity glob (pre ++ A :: mid ++ B :: post) path r = None).
Proof.
  intros HA HB Ha Hb. split; [|split; [|split]]; cycle 2.
  - intros post1 post2 C c -> Hlinted HC Hc Hpost.
    unfold effective_severity, evaluate. rewrite Hlinted.
    replace (pre ++ A :: mid ++ B :: post1 ++ C :: post2)
      with ((pre ++ A :: mid ++ B :: post1) ++ C :: post2)
      by (rewrite <-!(assoc_L (++)); simpl; by rewrite <-!(assoc_L (++))).
    rewrite applicable_app, applicable_cons_in by done.
    apply merged_rules_last; [done|]. by apply applicable_unset.
  - intros Hexcluded. unfold effective_severity, evaluate. by rewrite Hexcluded.
  - unfold effective_severity, evaluate.
    replace (excluded glob (pre ++ A :: mid ++ B :: post) path)
      with (excluded glob (pre ++ mid ++ B :: post) path).
    2:{ change (A :: mid ++ B :: post) with ([A] ++ mid ++ B :: post).
        rewrite !excluded_app. unfold excluded at 3. simpl.
        by rewrite (setter_not_ignores_only _ _ _ Ha). }
    destruct (excluded glob (pre ++ mid ++ B :: post) path); [done|].
    replace (pre ++ A :: mid ++ B :: post)
      with ((pre ++ A :: mid) ++ B :: post) by by rewrite <-(assoc_L (++)).
    rewrite (assoc_L (++) pre mid).
    rewrite !(applicable_app _ _ (B :: post)), !applicable_cons_in by done.
    unfold merged_rules. rewrite !foldl_app. by eapply merge_after_setter.
  - intros Hlinted Hpost.
    unfold effective_severity, evaluate. rewrite Hlinted.
    replace (pre ++ A :: mid ++ B :: post)
      with ((pre ++ A :: mid) ++ B :: post) by by rewrite <-(assoc_L (++)).
    rewrite applicable_app, applicable_cons_in by done.
    apply merged_rules_last; [done|]. by apply applicable_unset.
Qed.

Lemma override_law_witness :
  effective_severity glob_match
    ([] ++ VObj [("rules", VObj [("no-unused-vars", VStr "warn")])]
        :: [] ++ VObj [("files", VArr [VStr "**/*.ts"]);
                       ("rules", VObj [("no-unused-vars", VStr "error")])]
        :: [])
    "src/a.ts" "no-unused-vars"
  = Some (VStr "error").
Proof.
  apply (override_law glob_match [] [] []
           (VObj [("rules", VObj [("no-unused-vars", VStr "warn")])])
           (VObj [("files", VArr [VStr "**/*.ts"]);
                  ("rules", VObj [("no-unused-vars", VStr "error")])])
           "src/a.ts" "no-unused-vars" (VStr "warn") (VStr "error"));
    try reflexivity.
  intros f Hf. by apply elem_of_nil in Hf.
Defined.

(** ** Glob facts *)

Section GlobFacts.

Local Arguments Ascii.eqb : simpl never.

Implicit Types (s pre suf a : string) (ts : list token).









(** A directory pattern matches every path below the directory. *)
Lemma directory_glob_matches dir rest :
  dir ∈ ["dist/"; "node_modules/"; ".astro/"] →
  glob_match dir (dir +:+ rest) = true.
Proof.
  intros H.
  repeat (apply elem_of_cons in H as [->|H]; [reflexivity|]).
  by apply elem_of_nil in H.
Qed.

End GlobFacts.

(** C3: a fragment whose only key is [ignores] excludes every file its
    patterns match from evaluation, wherever it stands in the plan; the
    exported plan ends with such a fragment, which excludes every path
    under [dist/], [node_modules/] and [.astro/]. *)
Theorem global_ignore_law :
  (∀ (glob : string → string → bool) (pre post : list value)
     (pats : value) (path : string),
      matches_any glob pats path = true →
      evaluate glob (pre ++ object_literal [Field "ignores" pats] :: post) path
      = Excluded)
  ∧ (∀ (js typescript typescriptParser astro : value) (plan : list value)
       (dir rest : string),
      default_export js typescript typescriptParser astro = Ok plan →
      dir ∈ ["dist/"; "node_modules/"; ".astro/"] →
      evaluate glob_match plan (dir +:+ rest) = Excluded)
  ∧ (∀ (js typescript typescriptParser astro : value) (plan : list value),
      default_export js typescript typescriptParser astro = Ok plan →
      last plan = Some ignores_fragment
      ∧ keys ignores_fragment = ["ignores"]).
Proof.
  assert (∀ glob pre post pats path,
    matches_any glob pats path = true →
    evaluate glob (pre ++ VObj [("ignores", pats)] :: post) path = Excluded)
    as Hlaw.
  { intros glob pre post pats path H. unfold evaluate.
    change (pre ++ VObj [("ignores", pats)] :: post)
      with (pre ++ [VObj [("ignores", pats)]] ++ post).
    by rewrite !excluded_app, (excluded_by_ignores _ _ _ H), orb_true_r. }
  split; [exact Hlaw|]. split.
  2:{ intros js typescript typescriptParser astro plan Hplan.
      apply default_export_shape in Hplan
        as (jr & rs & _ & bundle & _ & _ & _ & _ & ->).
      split; [|reflexivity].
      change (jr :: ts_fragment typescript typescriptParser rs
                 :: bundle ++ [astro_fragment; ignores_fragment])
        with ([jr; ts_fragment typescript typescriptParser rs]
                ++ bundle ++ [astro_fragment] ++ [ignores_fragment]).
      by rewrite !(assoc_L (++)), last_snoc. }
  intros js typescript typescriptParser astro plan dir rest Hplan Hdir.
  apply default_export_shape in Hplan
    as (jr & rs & _ & bundle & _ & _ & _ & _ & ->).
  replace (jr :: ts_fragment typescript typescriptParser rs
              :: bundle ++ [astro_fragment; ignores_fragment])
    with ((jr :: ts_fragment typescript typescriptParser rs
              :: bundle ++ [astro_fragment]) ++ ignores_fragment :: [])
    by (simpl; by rewrite <-(assoc_L (++))).
  apply Hlaw. unfold matches_any. simpl.
  rewrite !orb_false_r.
  repeat (apply elem_of_cons in Hdir as [->|Hdir]; [reflexivity|]).
  by apply elem_of_nil in Hdir.
Qed.

Lemma global_ignore_law_witness :
  evaluate glob_match
    ([astro_fragment]
       ++ object_literal [Field "ignores" (VArr [VStr "dist/"])]
       :: [astro_fragment])
    "dist/index.js" = Excluded
  ∧ evaluate glob_match Sample.plan ("node_modules/" +:+ "pkg/index.js")
    = Excluded.
Proof.
  split.
  - apply (proj1 global_ignore_law glob_match [astro_fragment] [astro_fragment]
             (VArr [VStr "dist/"]) "dist/index.js").
    reflexivity.
  - apply (proj1 (proj2 global_ignore_law) Sample.js Sample.typescript
             Sample.typescriptParser Sample.astro Sample.plan
             "node_modules/" "pkg/index.js").
    + reflexivity.
    + apply list_elem_of_further, list_elem_of_here.
Defined.

(** C7: the plan composed of an unscoped fragment setting
    [no-unused-vars] to [warn] and a later fragment scoped to [**/*.ts]
    setting it to [error] gives [error] on [a.ts] and [warn] on [a.js],
    for any glob matcher under which [**/*.ts] matches [a.ts] and not
    [a.js]: the unscoped fragment reaches every file, the scoped one only
    the files its glob matches. *)
Theorem scoped_override_example (glob : string → string → bool) :
  let unscoped :=
    object_literal
      [ Field "rules"
          (object_literal [ Field "no-unused-vars" (VStr "warn") ]) ] in
  let scoped :=
    object_literal
      [ Field "files" (VArr [VStr "**/*.ts"]);
        Field "rules"
          (object_literal [ Field "no-unused-vars" (VStr "error") ]) ] in
  glob "**/*.ts" "a.ts" = true →
  glob "**/*.ts" "a.js" = false →
  ∃ plan,
    compose [Item unscoped; Item scoped] = Ok plan
    ∧ effective_severity glob plan "a.ts" "no-unused-vars" = Some (VStr "error")
    ∧ effective_severity glob plan "a.js" "no-unused-vars" = Some (VStr "warn")
    ∧ (∀ path, in_scope glob unscoped path = true)
    ∧ (∀ path, in_scope glob scoped path = glob "**/*.ts" path).
Proof.
  intros unscoped scoped Hts Hjs. exists [unscoped; scoped].
  split; [reflexivity|].
  unfold effective_severity, evaluate, excluded, applicable, in_scope,
    ignores_path, matches_any.
  simpl. rewrite Hts, Hjs. simpl.
  repeat split; try reflexivity.
  intros path. by rewrite orb_false_r, andb_true_r.
Qed.

Lemma scoped_override_example_witness :
  ∃ plan,
    compose
      [ Item (object_literal
                [ Field "rules"
                    (object_literal [ Field "no-unused-vars" (VStr "warn") ]) ]);
        Item (object_literal
                [ Field "files" (VArr [VStr "**/*.ts"]);
                  Field "rules"
                    (object_literal [ Field "no-unused-vars" (VStr "error") ]) ]) ]
    = Ok plan
    ∧ effective_severity glob_match plan "a.ts" "no-unused-vars"
      = Some (VStr "error")
    ∧ effective_severity glob_match plan "a.js" "no-unused-vars"
      = Some (VStr "warn").
Proof.
  destruct (scoped_override_example glob_match eq_refl eq_refl)
    as (plan & Hplan & Hts & Hjs & _).
  by exists plan.
Defined.

(** ** The TypeScript fragment and [.astro] files *)

Lemma ts_fragment_fields (typescript typescriptParser ts_rules : value) :
  ts_fragment typescript typescriptParser ts_rules =
    VObj [ ("files", ts_files);
           ("languageOptions",
            VObj [ ("parser", typescriptParser);
                   ("parserOptions",
                    VObj [ ("ecmaVersion", VStr "latest");
                           ("sourceType", VStr "module") ]) ]);
           ("plugins", VObj [("@typescript-eslint", typescript)]);
           ("rules", object_literal [SpreadField ts_rules]) ].
Proof. reflexivity. Qed.







(** ** Plugins declared before use *)

Section Plugins.

Implicit Types (f v : value) (plan : list value) (seen : gset string)
  (ps : list (string * value)) (k r : string).








End Plugins.




(** A sequence whose rules name a plugin that nothing declares composes
    all the same. *)
Lemma compose_accepts_undeclared_plugin :
  let bad :=
    object_literal
      [ Field "files" (VArr [VStr "**/*.astro"]);
        Field "rules"
          (object_literal
             [ Field "astro/no-conflict-set-directives" (VStr "error") ]) ] in
  plugins_declared ∅ [bad] = false
  ∧ compose [Item bad] = Ok [bad]
  ∧ ¬ (compose [Item bad] = Throw ConfigurationError
       ↔ plugins_declared ∅ [bad] = false).
Proof.
  intros bad. split; [by vm_compute|]. split; [reflexivity|].
  intros [_ H]. assert (plugins_declared ∅ [bad] = false) as Hbad by by vm_compute.
  specialize (H Hbad). by vm_compute in H.
Qed.

(** C4 (as the code has it): composing performs no validation.  It never
    fails with a ConfigurationError; its only failure is the TypeError of
    a spread whose value is not iterable, and every sequence of fragments
    and spread arrays of fragments composes to a plan. *)
Theorem compose_performs_no_validation (es : list element) :
  compose es ≠ Throw ConfigurationError
  ∧ (∀ err, compose es = Throw err →
       err = TypeError ∧ ∃ v, Spread v ∈ es ∧ iterate v = Throw TypeError)
  ∧ (forallb fragment_entry es = true → ∃ plan, compose es = Ok plan).
Proof.
  assert (∀ err, compose es = Throw err →
    err = TypeError ∧ ∃ v, Spread v ∈ es ∧ iterate v = Throw TypeError) as Hthrow.
  { induction es as [|e es IH]; intros err; [done|].
    rewrite compose_cons.
    destruct (element_values e) as [vs|err'] eqn:He; simpl.
    - destruct (compose es) as [rest|err'']; [done|]. simpl.
      intros [= <-]. destruct (IH err'' eq_refl) as (-> & v & Hv & Hiter).
      split; [done|]. exists v. split; [by apply list_elem_of_further|done].
    - intros [= <-]. destruct e as [v|v]; [done|]. simpl in He.
      assert (err' = TypeError) as -> by (destruct v; simpl in He; congruence).
      split; [done|]. exists v. split; [apply list_elem_of_here|done]. }
  split; [|split; [exact Hthrow|]].
  - intros H. by destruct (Hthrow _ H) as [? _].
  - intros Hes. destruct (compose es) as [plan|err] eqn:Hc; [by exists plan|].
    exfalso. destruct (Hthrow err eq_refl) as (_ & v & Hv & Hiter).
    apply forallb_forall with (x := Spread v) in Hes; [|by apply list_elem_of_In].
    by destruct v.
Qed.

Lemma compose_performs_no_validation_witness :
  ∃ plan,
    compose
      [ Spread (VArr [VObj [("rules", VObj [("astro/valid-compile", VStr "error")])]]);
        Item astro_fragment ]
    = Ok plan.
Proof.
  exact (proj2 (proj2 (compose_performs_no_validation
    [ Spread (VArr [VObj [("rules", VObj [("astro/valid-compile", VStr "error")])]]);
      Item astro_fragment ])) eq_refl).
Defined.

(** ** The store-level evaluation *)

Section StoreFacts.

Import Refinement.

Implicit Types (σ : Store.store) (v : value) (r : Store.ref) (l : Store.loc)
  (vs : list value) (rs : list Store.ref)
  (ps : list (string * value)) (qs : list (string * Store.ref)).

Lemma value_ind' (P : value → Prop) :
  P VUndefined →
  (∀ s, P (VStr s)) →
  (∀ tag, P (VOpaque tag)) →
  (∀ vs, Forall P vs → P (VArr vs)) →
  (∀ ps, Forall (fun p => P p.2) ps → P (VObj ps)) →
  ∀ v, P v.
Proof.
  intros Hundef Hstr Hopaque Harr Hobj. fix IH 1.
  intros [ |s|tag|vs|ps]; [done|done|done|apply Harr|apply Hobj].
  - induction vs as [|v vs IHvs]; constructor; [apply IH|apply IHvs].
  - induction ps as [|[k v] ps IHps]; constructor; [apply IH|apply IHps].
Qed.

Lemma forallb2_Forall2 {A B : Type} (f : A → B → bool) xs ys :
  Store.forallb2 f xs ys = true ↔ Forall2 (fun x y => f x y = true) xs ys.
Proof.
  revert ys. induction xs as [|x xs IH]; intros [|y ys]; simpl.
  - split; [constructor|done].
  - split; [done|inversion 1].
  - split; [done|inversion 1].
  - rewrite andb_true_iff, IH. split.
    + intros [??]. by constructor.
    + by inversion 1.
Qed.

Lemma represents_arr σ vs l :
  Store.represents σ (VArr vs) (Store.RLoc l) = true ↔
  ∃ rs, σ !! l = Some (Store.CArr rs) ∧ Store.represents_all σ vs rs.
Proof.
  simpl. destruct (σ !! l) as [[rs|qs]|].
  - rewrite forallb2_Forall2. split; [by exists rs|].
    by intros (? & [= <-] & ?).
  - split; [done|]. by intros (? & ? & ?).
  - split; [done|]. by intros (? & ? & ?).
Qed.

Lemma represents_obj σ ps l :
  Store.represents σ (VObj ps) (Store.RLoc l) = true ↔
  ∃ qs, σ !! l = Some (Store.CObj qs) ∧ Store.represents_props σ ps qs.
Proof.
  assert (∀ qs,
    Store.forallb2
      (fun p q => String.eqb p.1 q.1 && Store.represents σ p.2 q.2) ps qs = true
    ↔ Store.represents_props σ ps qs) as Hall.
  { intros qs. rewrite forallb2_Forall2. unfold Store.represents_props.
    split; intros H; (eapply Forall2_impl; [exact H|]); intros p q.
    - intros [Hk ?]%andb_prop. by apply String.eqb_eq in Hk.
    - intros [-> ->]. by rewrite String.eqb_refl. }
  simpl. destruct (σ !! l) as [[rs|qs]|].
  - split; [done|]. by intros (? & ? & ?).
  - rewrite Hall. split; [by exists qs|]. by intros (? & [= <-] & ?).
  - split; [done|]. by intros (? & ? & ?).
Qed.

Lemma represents_mono σ σ' v r :
  σ ⊆ σ' → Store.represents σ v r = true → Store.represents σ' v r = true.
Proof.
  intros Hsub. revert r.
  induction v as [ |s|tag|vs IH|ps IH] using value_ind'; intros [ |s'|tag'|l];
    try done.
  - rewrite !represents_arr. intros (rs & Hl & Hall). exists rs.
    split; [by eapply lookup_weaken|]. clear Hl.
    unfold Store.represents_all in *.
    revert IH. induction Hall as [|v r vs rs Hv _ IHall]; intros IH;
      [constructor|].
    apply Forall_cons in IH as [IHv IHvs].
    constructor; [by apply IHv|by apply IHall].
  - rewrite !represents_obj. intros (qs & Hl & Hall). exists qs.
    split; [by eapply lookup_weaken|]. clear Hl.
    unfold Store.represents_props in *.
    revert IH. induction Hall as [|p q ps qs [Hk Hv] _ IHall]; intros IH;
      [constructor|].
    apply Forall_cons in IH as [IHv IHvs].
    constructor; [by split; [|apply IHv]|by apply IHall].
Qed.

Lemma represents_all_mono σ σ' vs rs :
  σ ⊆ σ' → Store.represents_all σ vs rs → Store.represents_all σ' vs rs.
Proof.
  intros Hsub H. eapply Forall2_impl; [exact H|].
  intros v r. by apply represents_mono.
Qed.

Lemma represents_props_mono σ σ' ps qs :
  σ ⊆ σ' → Store.represents_props σ ps qs → Store.represents_props σ' ps qs.
Proof.
  intros Hsub H. eapply Forall2_impl; [exact H|]. intros p q [? ?].
  split; [done|]. by eapply represents_mono.
Qed.

(** *** Related property lists *)

Lemma obj_get_related σ ps qs k :
  Store.represents_props σ ps qs →
  Store.represents σ (default VUndefined (obj_get k ps))
    (default Store.RUndefined (obj_get k qs)) = true.
Proof.
  induction 1 as [|[k1 v] [k2 r] ps qs [Hk Hv] _ IH]; [done|].
  simpl in *. subst k2. by destruct (String.eqb k k1).
Qed.

Lemma obj_set_related σ ps qs k v r :
  Store.represents_props σ ps qs →
  Store.represents σ v r = true →
  Store.represents_props σ (obj_set k v ps) (obj_set k r qs).
Proof.
  intros Hall Hv.
  induction Hall as [|[k1 v1] [k2 r1] ps qs [Hk Hv1] Hrest IH]; simpl.
  - by repeat constructor.
  - simpl in Hk. subst k2. destruct (String.eqb k k1); by constructor.
Qed.

Lemma define_related σ ps qs kvs kvs' :
  Store.represents_props σ ps qs →
  Store.represents_props σ kvs kvs' →
  Store.represents_props σ (foldl define ps kvs) (foldl define qs kvs').
Proof.
  intros Hacc Hkvs. revert ps qs Hacc.
  induction Hkvs as [|[k1 v] [k2 r] kvs kvs' [Hk Hv] _ IH]; intros ps qs Hacc;
    [done|].
  simpl in *. subst k2. apply IH. by apply obj_set_related.
Qed.

Lemma indexed_related σ vs rs i :
  Store.represents_all σ vs rs →
  Store.represents_props σ (indexed i vs) (indexed i rs).
Proof.
  intros Hall. revert i.
  induction Hall as [|v r vs rs Hv _ IH]; intros i; simpl.
  - apply Forall2_nil_2.
  - apply Forall2_cons_2; [done|apply IH].
Qed.

Lemma chars_related σ s :
  Store.represents_all σ (VStr <$> chars s) (Store.RStr <$> chars s).
Proof.
  induction (chars s) as [|c cs IH]; constructor; [|done].
  simpl. apply String.eqb_refl.
Qed.

(** *** Runs only extend the store *)

Lemma run_bind {A B : Type} (m : Store.M A) (k : A → Store.M B) σ :
  (m ≫= k) σ =
    match m σ with
    | (Ok a, σ') => k a σ'
    | (Throw e, σ') => (Throw e, σ')
    end.
Proof. reflexivity. Qed.

Lemma extends_ret {A : Type} (a : A) : Store.extends (mret a : Store.M A).
Proof. by intros σ. Qed.

Lemma extends_bind {A B : Type} (m : Store.M A) (k : A → Store.M B) :
  Store.extends m → (∀ a, Store.extends (k a)) → Store.extends (m ≫= k).
Proof.
  intros Hm Hk σ. rewrite run_bind. specialize (Hm σ).
  destruct (m σ) as [[a|e] σ']; [|done].
  simpl in Hm. etrans; [done|]. apply Hk.
Qed.

Lemma alloc_fresh σ (c : Store.cell) : σ ⊆ <[fresh (dom σ) := c]> σ.
Proof. apply insert_subseteq, not_elem_of_dom, is_fresh. Qed.

Lemma extends_alloc (c : Store.cell) : Store.extends (Store.alloc c).
Proof. intros σ. apply alloc_fresh. Qed.

Lemma member_store r k σ : (Store.member r k σ).2 = σ.
Proof. destruct r as [ | | |l]; try done. simpl. by destruct (σ !! l) as [[]|]. Qed.

Lemma own_props_store r σ : (Store.own_props r σ).2 = σ.
Proof. destruct r as [ | | |l]; try done. simpl. by destruct (σ !! l) as [[]|]. Qed.

Lemma iterate_store r σ : (Store.iterate r σ).2 = σ.
Proof. destruct r as [ | | |l]; try done. simpl. by destruct (σ !! l) as [[]|]. Qed.

Lemma extends_member r k : Store.extends (Store.member r k).
Proof. intros σ. by rewrite member_store. Qed.

Lemma extends_own_props r : Store.extends (Store.own_props r).
Proof. intros σ. by rewrite own_props_store. Qed.

Lemma extends_iterate r : Store.extends (Store.iterate r).
Proof. intros σ. by rewrite iterate_store. Qed.

Lemma extends_read r (ks : list string) : Store.extends (Store.read r ks).
Proof.
  revert r. induction ks as [|k ks IH]; intros r; [apply extends_ret|].
  apply extends_bind; [apply extends_member|done].
Qed.

Lemma extends_properties (props : list Store.property) qs :
  Forall (fun q => Store.extends (property_expr q)) props →
  Store.extends (Store.properties props qs).
Proof.
  intros H. revert qs.
  induction H as [|[k e|e] props He _ IH]; intros qs; [apply extends_ret| |];
    simpl in He; apply extends_bind; try done; intros r.
  apply extends_bind; [apply extends_own_props|done].
Qed.

Lemma extends_object_literal (props : list Store.property) :
  Forall (fun q => Store.extends (property_expr q)) props →
  Store.extends (Store.object_literal props).
Proof.
  intros H. apply extends_bind; [by apply extends_properties|].
  intros qs. apply extends_alloc.
Qed.

Lemma extends_elements (es : list Store.element) :
  Forall (fun q => Store.extends (element_expr q)) es →
  Store.extends (Store.elements es).
Proof.
  induction 1 as [|[e|e] es He _ IH]; [apply extends_ret| |];
    simpl in He; apply extends_bind; try done; intros r.
  - apply extends_bind; [done|]. intros rest. apply extends_ret.
  - apply extends_bind; [apply extends_iterate|]. intros rs.
    apply extends_bind; [done|]. intros rest. apply extends_ret.
Qed.

Lemma extends_array_literal (es : list Store.element) :
  Forall (fun q => Store.extends (element_expr q)) es →
  Store.extends (Store.array_literal es).
Proof.
  intros H. apply extends_bind; [by apply extends_elements|].
  intros rs. apply extends_alloc.
Qed.

Lemma extends_default_export (js typescript typescriptParser astro : Store.ref) :
  Store.extends (Store.default_export js typescript typescriptParser astro).
Proof.
  unfold Store.default_export, Store.str.
  repeat first
    [ apply extends_array_literal | apply extends_object_literal
    | apply extends_read | apply extends_ret
    | apply Forall_cons_2; [cbn [property_expr element_expr]|]
    | apply Forall_nil_2 ].
Qed.

(** *** Runs agree with the pure evaluation *)

Lemma refines_weaken {A B : Type} (R : Store.store → B → A → Prop) σ0 σ1
    (m : Store.M A) (pure : result B) :
  σ0 ⊆ σ1 → Store.refines R σ0 m pure → Store.refines R σ1 m pure.
Proof. intros Hsub H σ Hσ. apply H. by etrans. Qed.

Lemma refines_ret {A B : Type} (R : Store.store → B → A → Prop) σ0
    (a : A) (b : B) :
  (∀ σ, σ0 ⊆ σ → R σ b a) → Store.refines R σ0 (mret a) (Ok b).
Proof. intros H σ Hσ. split; [done|]. by apply H. Qed.

Lemma refines_bind {A B A' B' : Type}
    (R : Store.store → B → A → Prop) (R' : Store.store → B' → A' → Prop)
    σ0 (m : Store.M A) (pure : result B)
    (k : A → Store.M A') (k' : B → result B') :
  Store.refines R σ0 m pure →
  (∀ σ1 a b, σ0 ⊆ σ1 → R σ1 b a → Store.refines R' σ1 (k a) (k' b)) →
  Store.refines R' σ0 (m ≫= k) (pure ≫= k').
Proof.
  intros Hm Hk σ Hσ. rewrite run_bind.
  destruct (Hm σ Hσ) as [Hext Hagree].
  destruct (m σ) as [[a|e] σ1], pure as [b|e']; simpl in *; try done.
  destruct (Hk σ1 a b) with (σ := σ1) as [Hext' Hagree']; [by etrans|done|done|].
  split; [by etrans|done].
Qed.

Lemma refines_str σ0 (s : string) :
  Store.refines leads_to σ0 (Store.str s) (InPlace.str s).
Proof. apply refines_ret. intros σ _. apply String.eqb_refl. Qed.

Lemma refines_value σ0 v r :
  Store.represents σ0 v r = true → Store.refines leads_to σ0 (mret r) (Ok v).
Proof. intros H. apply refines_ret. intros σ Hσ. by eapply represents_mono. Qed.

Lemma refines_alloc_arr σ0 vs rs :
  Store.represents_all σ0 vs rs →
  Store.refines leads_to σ0 (Store.alloc (Store.CArr rs)) (Ok (VArr vs)).
Proof.
  intros H σ Hσ. split; [apply alloc_fresh|].
  apply represents_arr. exists rs. split; [apply lookup_insert_eq|].
  eapply represents_all_mono; [|done]. etrans; [done|apply alloc_fresh].
Qed.

Lemma refines_alloc_obj σ0 ps qs :
  Store.represents_props σ0 ps qs →
  Store.refines leads_to σ0 (Store.alloc (Store.CObj qs)) (Ok (VObj ps)).
Proof.
  intros H σ Hσ. split; [apply alloc_fresh|].
  apply represents_obj. exists qs. split; [apply lookup_insert_eq|].
  eapply represents_props_mono; [|done]. etrans; [done|apply alloc_fresh].
Qed.

Lemma refines_member σ0 v r (k : string) :
  Store.represents σ0 v r = true →
  Store.refines leads_to σ0 (Store.member r k) (member v k).
Proof.
  intros H σ Hσ. rewrite (surjective_pairing (Store.member r k σ)).
  rewrite member_store. split; [done|].
  destruct v as [ |s|tag|vs|ps], r as [ |s'|tag'|l]; try done.
  - apply represents_arr in H as (rs & Hl & _).
    simpl. by rewrite (lookup_weaken _ _ _ _ Hl Hσ).
  - apply represents_obj in H as (qs & Hl & Hprops).
    simpl. rewrite (lookup_weaken _ _ _ _ Hl Hσ). simpl.
    eapply represents_mono; [done|]. by apply obj_get_related.
Qed.

Lemma refines_read σ0 v r (ks : list string) :
  Store.represents σ0 v r = true →
  Store.refines leads_to σ0 (Store.read r ks) (read v ks).
Proof.
  revert σ0 v r. induction ks as [|k ks IH]; intros σ0 v r H.
  - by apply refines_value.
  - apply (refines_bind leads_to leads_to); [by apply refines_member|].
    intros σ1 r' v' _ H'. by apply IH.
Qed.

Lemma refines_iterate σ0 v r :
  Store.represents σ0 v r = true →
  Store.refines Store.represents_all σ0 (Store.iterate r) (iterate v).
Proof.
  intros H σ Hσ. rewrite (surjective_pairing (Store.iterate r σ)).
  rewrite iterate_store. split; [done|].
  destruct v as [ |s|tag|vs|ps], r as [ |s'|tag'|l]; try done.
  - simpl in H. apply String.eqb_eq in H as <-. apply chars_related.
  - apply represents_arr in H as (rs & Hl & Hall).
    simpl. rewrite (lookup_weaken _ _ _ _ Hl Hσ). simpl.
    by eapply represents_all_mono.
  - apply represents_obj in H as (qs & Hl & _).
    simpl. by rewrite (lookup_weaken _ _ _ _ Hl Hσ).
Qed.

Lemma refines_own_props σ0 v r :
  Store.represents σ0 v r = true →
  Store.refines Store.represents_props σ0 (Store.own_props r)
    (Ok (own_props v)).
Proof.
  intros H σ Hσ. rewrite (surjective_pairing (Store.own_props r σ)).
  rewrite own_props_store. split; [done|].
  destruct v as [ |s|tag|vs|ps], r as [ |s'|tag'|l]; try done;
    try apply Forall2_nil_2.
  - simpl in H. apply String.eqb_eq in H as <-.
    apply indexed_related, chars_related.
  - apply represents_arr in H as (rs & Hl & Hall).
    simpl. rewrite (lookup_weaken _ _ _ _ Hl Hσ). simpl.
    apply indexed_related. by eapply represents_all_mono.
  - apply represents_obj in H as (qs & Hl & Hprops).
    simpl. rewrite (lookup_weaken _ _ _ _ Hl Hσ). simpl.
    by eapply represents_props_mono.
Qed.

Lemma refines_properties σ0 (props : list Store.property)
    (props' : list InPlace.property) :
  Forall2 (property_refines σ0) props props' →
  ∀ σ1 ps qs, σ0 ⊆ σ1 → Store.represents_props σ1 ps qs →
  Store.refines Store.represents_props σ1 (Store.properties props qs)
    (InPlace.properties props' ps).
Proof.
  induction 1 as [|[k e|e] [k' e'|e'] props props' He _ IH];
    intros σ1 ps qs Hσ1 Hacc; try done.
  - apply refines_ret. intros σ Hσ. by eapply represents_props_mono.
  - destruct He as [<- He].
    apply (refines_bind leads_to Store.represents_props);
      [by eapply refines_weaken|].
    intros σ2 r v Hσ2 Hv. apply IH; [by etrans|].
    apply obj_set_related; [by eapply represents_props_mono|done].
  - simpl in He.
    apply (refines_bind leads_to Store.represents_props);
      [by eapply refines_weaken|].
    intros σ2 r v Hσ2 Hv.
    apply (refines_bind Store.represents_props Store.represents_props σ2
             (Store.own_props r) (Ok (own_props v))
             (fun kvs' => Store.properties props (foldl define qs kvs'))
             (fun kvs => InPlace.properties props' (foldl define ps kvs)));
      [by apply refines_own_props|].
    intros σ3 kvs' kvs Hσ3 Hkvs. apply IH; [by do 2 (etrans; [done|])|].
    apply define_related; [|done].
    eapply represents_props_mono; [|done]. by etrans.
Qed.

Lemma refines_object_literal σ0 (props : list Store.property)
    (props' : list InPlace.property) :
  Forall2 (property_refines σ0) props props' →
  Store.refines leads_to σ0 (Store.object_literal props)
    (InPlace.object_literal props').
Proof.
  intros H. apply (refines_bind Store.represents_props leads_to).
  - apply (refines_properties σ0); [done|done|apply Forall2_nil_2].
  - intros σ1 qs ps _ Hprops. by apply refines_alloc_obj.
Qed.

Lemma refines_elements σ0 (es : list Store.element)
    (es' : list InPlace.element) :
  Forall2 (element_refines σ0) es es' →
  ∀ σ1, σ0 ⊆ σ1 →
  Store.refines Store.represents_all σ1 (Store.elements es)
    (InPlace.elements es').
Proof.
  induction 1 as [|[e|e] [e'|e'] es es' He _ IH]; intros σ1 Hσ1; try done.
  - apply refines_ret. intros σ _. apply Forall2_nil_2.
  - simpl in He.
    apply (refines_bind leads_to Store.represents_all);
      [by eapply refines_weaken|].
    intros σ2 r v Hσ2 Hv.
    apply (refines_bind Store.represents_all Store.represents_all);
      [apply IH; by etrans|].
    intros σ3 rest rest' Hσ3 Hrest. apply refines_ret. intros σ Hσ.
    apply Forall2_cons_2.
    + eapply represents_mono; [|done]. by etrans.
    + by eapply represents_all_mono.
  - simpl in He.
    apply (refines_bind leads_to Store.represents_all);
      [by eapply refines_weaken|].
    intros σ2 r v Hσ2 Hv.
    apply (refines_bind Store.represents_all Store.represents_all);
      [by apply refines_iterate|].
    intros σ3 rs vs Hσ3 Hvs.
    apply (refines_bind Store.represents_all Store.represents_all);
      [apply IH; by do 2 (etrans; [done|])|].
    intros σ4 rest rest' Hσ4 Hrest. apply refines_ret. intros σ Hσ.
    apply Forall2_app.
    + eapply represents_all_mono; [|done]. by etrans.
    + by eapply represents_all_mono.
Qed.

Lemma refines_array_literal σ0 (es : list Store.element)
    (es' : list InPlace.element) :
  Forall2 (element_refines σ0) es es' →
  Store.refines leads_to σ0 (Store.array_literal es)
    (InPlace.array_literal es').
Proof.
  intros H. apply (refines_bind Store.represents_all leads_to).
  - by apply (refines_elements σ0).
  - intros σ1 rs vs _ Hall. by apply refines_alloc_arr.
Qed.

(** The store-level export computes what the in-place pure one does. *)
Lemma refines_default_export σ0
    (rjs rts rparser rastro : Store.ref) (js typescript typescriptParser astro : value) :
  Store.represents σ0 js rjs = true →
  Store.represents σ0 typescript rts = true →
  Store.represents σ0 typescriptParser rparser = true →
  Store.represents σ0 astro rastro = true →
  Store.refines leads_to σ0 (Store.default_export rjs rts rparser rastro)
    (InPlace.default_export js typescript typescriptParser astro).
Proof.
  intros Hjs Hts Hparser Hastro.
  unfold Store.default_export, InPlace.default_export.
  repeat first
    [ apply refines_array_literal | apply refines_object_literal
    | by apply refines_read | apply refines_str | by apply refines_value
    | apply Forall2_cons_2;
        [cbn [property_refines element_refines];
         lazymatch goal with
         | |- _ = _ ∧ _ => split; [reflexivity|]
         | |- _ => idtac
         end|]
    | apply Forall2_nil_2 ].
Qed.

Lemma extends_compose (es : list Store.entry) :
  Store.extends (Store.compose es).
Proof.
  apply extends_array_literal, Forall_fmap, Forall_forall.
  intros [r|r] _; apply extends_ret.
Qed.

Lemma compose_in_place (es : list element) :
  InPlace.array_literal (in_place <$> es) =
    (plan ← compose es; Ok (VArr plan)).
Proof.
  unfold InPlace.array_literal. f_equal.
  induction es as [|[v|v] es IH]; [done| |].
  - rewrite fmap_cons, compose_cons. cbn [in_place InPlace.elements].
    rewrite IH. by destruct (compose es).
  - rewrite fmap_cons, compose_cons. cbn [in_place InPlace.elements].
    rewrite IH. simpl. by destruct (iterate v), (compose es).
Qed.

Lemma refines_compose σ0 (es : list element) (qs : list Store.entry) :
  Forall2 (entry_represents σ0) es qs →
  Store.refines leads_to σ0 (Store.compose qs)
    (plan ← compose es; Ok (VArr plan)).
Proof.
  intros H. rewrite <-compose_in_place. apply refines_array_literal.
  induction H as [|[v|v] [r|r] es qs He _ IH];
    [apply Forall2_nil_2|idtac..]; try done;
    rewrite !fmap_cons; (apply Forall2_cons_2; [by apply refines_value|done]).
Qed.

(** Reading the three property chains first changes nothing. *)
Lemma default_export_in_place (js typescript typescriptParser astro : value) :
  InPlace.default_export js typescript typescriptParser astro =
    (plan ← default_export js typescript typescriptParser astro;
     Ok (VArr plan)).
Proof.
  unfold InPlace.default_export, default_export, InPlace.array_literal.
  cbn [InPlace.elements].
  destruct (read js ["configs"; "recommended"]) as [jr|e]; [|done].
  destruct (read typescript ["configs"; "recommended"; "rules"]) as [rs|e];
    [|done].
  destruct (read astro ["configs"; "recommended"]) as [ar|e]; [|done].
  change (compose
            [ Item jr; Item (ts_fragment typescript typescriptParser rs);
              Spread ar; Item astro_fragment; Item ignores_fragment ])
    with (vs ← iterate ar;
          Ok (jr :: ts_fragment typescript typescriptParser rs
                 :: vs ++ [astro_fragment; ignores_fragment])).
  by destruct (iterate ar).
Qed.

End StoreFacts.

(** C6: composing is a pure, deterministic function of its input.  Over
    a store of shared objects the evaluation of the array literal only
    allocates: every cell the store held before (the input fragments,
    anything else) is still there, unchanged, afterwards.  And its outcome
    is the one the pure function gives on the data the input leads to:
    every run on the same input yields the same plan, and an input that
    fails fails with the same error on every run.  This holds of
    [compose] on any input sequence and of the exported configuration as
    a whole, as a function of the four imports. *)
Theorem default_export_pure :
  (∀ (qs : list Store.entry) (σ : Store.store),
      σ ⊆ (Store.compose qs σ).2)
  ∧ (∀ (σ : Store.store) (es : list element) (qs : list Store.entry),
      Forall2 (Refinement.entry_represents σ) es qs →
      Store.agrees (fun σ' v r => Store.represents σ' v r = true)
        (Store.compose qs σ).2 (Store.compose qs σ).1
        (plan ← compose es; Ok (VArr plan)))
  ∧ (∀ (js typescript typescriptParser astro : Store.ref) (σ : Store.store),
      σ ⊆ (Store.default_export js typescript typescriptParser astro σ).2)
  ∧ (∀ (σ : Store.store) (rjs rts rparser rastro : Store.ref)
       (js typescript typescriptParser astro : value),
      Store.represents σ js rjs = true →
      Store.represents σ typescript rts = true →
      Store.represents σ typescriptParser rparser = true →
      Store.represents σ astro rastro = true →
      Store.agrees (fun σ' v r => Store.represents σ' v r = true)
        (Store.default_export rjs rts rparser rastro σ).2
        (Store.default_export rjs rts rparser rastro σ).1
        (plan ← default_export js typescript typescriptParser astro;
         Ok (VArr plan))).
Proof.
  split; [|split; [|split]].
  - intros qs. apply extends_compose.
  - intros σ es qs H. by apply (refines_compose σ es qs).
  - intros js typescript typescriptParser astro. apply extends_default_export.
  - intros σ rjs rts rparser rastro js typescript typescriptParser astro
      Hjs Hts Hparser Hastro.
    rewrite <-default_export_in_place.
    by apply (refines_default_export σ rjs rts rparser rastro
                js typescript typescriptParser astro).
Qed.

Lemma default_export_pure_witness :
  Store.agrees (fun σ' v r => Store.represents σ' v r = true)
    (Store.compose
       [Store.Splice (Store.RLoc 37%positive); Store.Keep (Store.RLoc 11%positive)]
       Sample.store).2
    (Store.compose
       [Store.Splice (Store.RLoc 37%positive); Store.Keep (Store.RLoc 11%positive)]
       Sample.store).1
    (plan ← compose
              [ Spread (VArr [ VObj [("plugins",
                                      VObj [("astro", VOpaque "eslint-plugin-astro")])];
                               VObj [("files", VArr [VStr "**/*.astro"]);
                                     ("rules",
                                      VObj [("astro/no-set-html-directive",
                                             VStr "off")])];
                               VObj [("rules",
                                      VObj [("astro/valid-compile",
                                             VStr "error")])] ]);
                Item (VObj [("rules", VObj [("no-undef", VStr "error");
                                            ("no-unused-vars", VStr "error")])]) ];
     Ok (VArr plan))
  ∧ Store.agrees (fun σ' v r => Store.represents σ' v r = true)
      (Store.default_export (Store.RLoc 13%positive) (Store.RLoc 23%positive)
         (Store.ROpaque "@typescript-eslint/parser") (Store.RLoc 39%positive)
         Sample.store).2
      (Store.default_export (Store.RLoc 13%positive) (Store.RLoc 23%positive)
         (Store.ROpaque "@typescript-eslint/parser") (Store.RLoc 39%positive)
         Sample.store).1
      (Ok (VArr Sample.plan)).
Proof.
  split.
  - apply (proj1 (proj2 default_export_pure) Sample.store).
    apply Forall2_cons_2; [vm_compute; reflexivity|].
    apply Forall2_cons_2; [vm_compute; reflexivity|].
    apply Forall2_nil_2.
  - apply (proj2 (proj2 (proj2 default_export_pure)) Sample.store
             (Store.RLoc 13%positive) (Store.RLoc 23%positive)
             (Store.ROpaque "@typescript-eslint/parser")
             (Store.RLoc 39%positive)
             Sample.js Sample.typescript Sample.typescriptParser Sample.astro);
      vm_compute; reflexivity.
Defined.


(** X1: the property chains of the module ([js.configs.recommended]
    and the like, over the names [configs], [recommended] and [rules])
    are read left to right, one link after the other: reading [ks1] and
    then [ks2] from what it gave is reading [ks1 ++ ks2].  Such a chain
    throws exactly when one of its links is read from [undefined], and a
    property that an object does not have is not an error: the chain
    reads as [undefined]. *)
Theorem read_chain_links (v : value) (ks1 ks2 : list string) (k : string) :
  ks1 ⊆ imported_keys → ks2 ⊆ imported_keys → k ∈ imported_keys →
  read v (ks1 ++ ks2) = (v' ← read v ks1; read v' ks2)
  ∧ ((∃ e, read v (ks1 ++ [k]) = Throw e)
     ↔ (∃ e, read v ks1 = Throw e) ∨ read v ks1 = Ok VUndefined)
  ∧ (∀ ps, read v ks1 = Ok (VObj ps) → obj_get k ps = None →
       read v (ks1 ++ [k]) = Ok VUndefined).
Proof.
  intros _ _ _. split; [apply read_app|]. split.
  - rewrite read_app. destruct (read v ks1) as [v'|e] eqn:Hr; simpl.
    + split.
      * intros [e He]. right.
        destruct (member v' k) as [v''|e'] eqn:Hm; [done|].
        by apply member_throws in Hm as [-> _].
      * intros [[e He]|[= ->]]; [done|]. by exists TypeError.
    + split; [|by exists e]. intros _. left. by exists e.
  - intros ps Hr Hk. rewrite read_app, Hr. simpl. by rewrite Hk.
Qed.

Lemma read_chain_links_witness :
  read Sample.js (["configs"] ++ ["recommended"])
  = (v' ← read Sample.js ["configs"]; read v' ["recommended"])
  ∧ ((∃ e, read Sample.js (["configs"] ++ ["rules"]) = Throw e)
     ↔ (∃ e, read Sample.js ["configs"] = Throw e)
       ∨ read Sample.js ["configs"] = Ok VUndefined)
  ∧ (∀ ps, read Sample.js ["configs"] = Ok (VObj ps) →
       obj_get "rules" ps = None →
       read Sample.js (["configs"] ++ ["rules"]) = Ok VUndefined).
Proof.
  apply (read_chain_links Sample.js ["configs"] ["recommended"] "rules").
  - apply (bool_decide_unpack _). vm_compute. reflexivity.
  - apply (bool_decide_unpack _). vm_compute. reflexivity.
  - apply (bool_decide_unpack _). vm_compute. reflexivity.
Defined.

(** ** What the export needs from the packages *)

(** X2: the default export evaluates to a plan exactly when the three
    property chains of the literal can be read and the value of
    [astro.configs.recommended] is iterable; otherwise it throws, and
    what it throws is a TypeError. *)
Theorem default_export_outcome (js typescript typescriptParser astro : value) :
  (∀ e, default_export js typescript typescriptParser astro = Throw e →
        e = TypeError)
  ∧ ((∃ plan, default_export js typescript typescriptParser astro = Ok plan)
     ↔ ∃ js_recommended ts_rules astro_recommended bundle,
         read js ["configs"; "recommended"] = Ok js_recommended
         ∧ read typescript ["configs"; "recommended"; "rules"] = Ok ts_rules
         ∧ read astro ["configs"; "recommended"] = Ok astro_recommended
         ∧ iterate astro_recommended = Ok bundle)
  ∧ (∀ plan bundle astro_recommended,
       default_export js typescript typescriptParser astro = Ok plan →
       read astro ["configs"; "recommended"] = Ok astro_recommended →
       iterate astro_recommended = Ok bundle →
       length plan = length bundle + 4).
Proof.
  split; [|split].
  - intros e. unfold default_export.
    destruct (read js _) as [jr|e1] eqn:Ejs;
      [|simpl; intros [= <-]; by apply read_throws in Ejs].
    destruct (read typescript _) as [rs|e2] eqn:Ets;
      [|simpl; intros [= <-]; by apply read_throws in Ets].
    destruct (read astro _) as [ar|e3] eqn:Eastro;
      [|simpl; intros [= <-]; by apply read_throws in Eastro].
    unfold compose. simpl.
    destruct (iterate ar) as [bundle|e4] eqn:Eiter; simpl; [done|].
    intros [= <-]. by apply iterate_throws in Eiter.
  - split.
    + intros [plan Hplan].
      apply default_export_shape in Hplan
        as (jr & rs & ar & bundle & ? & ? & ? & ? & _).
      by exists jr, rs, ar, bundle.
    + intros (jr & rs & ar & bundle & Hjs & Hts & Hastro & Hiter).
      eexists. by apply (default_export_ok _ _ _ _ jr rs ar bundle).
  - intros plan bundle ar Hplan Hastro Hiter.
    apply default_export_shape in Hplan
      as (jr & rs & ar' & bundle' & _ & _ & Hastro' & Hiter' & ->).
    rewrite Hastro in Hastro'. injection Hastro' as <-.
    rewrite Hiter in Hiter'. injection Hiter' as <-.
    simpl. rewrite length_app. simpl. lia.
Qed.

(** X3: the three imports are not treated alike when an entry is missing.
    Without [astro.configs.recommended] the export throws a TypeError
    (the spread of [undefined] in an array literal).  Without
    [typescript.configs.recommended.rules] it still evaluates: the object
    spread of [undefined] copies nothing and the TypeScript fragment gets
    an empty [rules] object.  Without [js.configs.recommended] it still
    evaluates too, with [undefined] as the first entry of the plan. *)
Theorem default_export_missing_entries
    (js typescript typescriptParser astro : value) :
  (read astro ["configs"; "recommended"] = Ok VUndefined →
   default_export js typescript typescriptParser astro = Throw TypeError)
  ∧ (∀ js_recommended astro_recommended bundle,
       read js ["configs"; "recommended"] = Ok js_recommended →
       read typescript ["configs"; "recommended"; "rules"] = Ok VUndefined →
       read astro ["configs"; "recommended"] = Ok astro_recommended →
       iterate astro_recommended = Ok bundle →
       ∃ plan,
         default_export js typescript typescriptParser astro = Ok plan
         ∧ plan !! 1 ≫= field "rules" = Some (VObj []))
  ∧ (∀ ts_rules astro_recommended bundle,
       read js ["configs"; "recommended"] = Ok VUndefined →
       read typescript ["configs"; "recommended"; "rules"] = Ok ts_rules →
       read astro ["configs"; "recommended"] = Ok astro_recommended →
       iterate astro_recommended = Ok bundle →
       ∃ plan,
         default_export js typescript typescriptParser astro = Ok plan
         ∧ plan !! 0 = Some VUndefined).
Proof.
  split; [|split].
  - intros Hastro.
    destruct (default_export js typescript typescriptParser astro)
      as [plan|e] eqn:Hrun.
    + apply default_export_shape in Hrun
        as (jr & rs & ar & bundle & _ & _ & Hastro' & Hiter & _).
      rewrite Hastro in Hastro'. injection Hastro' as <-. discriminate.
    + f_equal. revert Hrun. unfold default_export.
      destruct (read js _) as [jr|e1] eqn:Ejs;
        [|simpl; intros [= <-]; by apply read_throws in Ejs].
      destruct (read typescript _) as [rs|e2] eqn:Ets;
        [|simpl; intros [= <-]; by apply read_throws in Ets].
      rewrite Hastro. simpl. by intros [= <-].
  - intros jr ar bundle Hjs Hts Hastro Hiter. eexists. split.
    + by apply (default_export_ok _ _ _ _ jr VUndefined ar bundle).
    + reflexivity.
  - intros rs ar bundle Hjs Hts Hastro Hiter. eexists. split.
    + by apply (default_export_ok _ _ _ _ VUndefined rs ar bundle).
    + reflexivity.
Qed.

Lemma default_export_missing_entries_witness :
  default_export Sample.js Sample.typescript Sample.typescriptParser
    (VObj [("configs", VObj [])]) = Throw TypeError
  ∧ (∃ plan,
       default_export Sample.js (VObj [("configs", VObj [("recommended", VObj [])])])
         Sample.typescriptParser Sample.astro = Ok plan
       ∧ plan !! 1 ≫= field "rules" = Some (VObj []))
  ∧ (∃ plan,
       default_export (VObj [("configs", VObj [])]) Sample.typescript
         Sample.typescriptParser Sample.astro = Ok plan
       ∧ plan !! 0 = Some VUndefined).
Proof.
  split; [|split].
  - exact (proj1 (default_export_missing_entries Sample.js Sample.typescript
                    Sample.typescriptParser (VObj [("configs", VObj [])]))
             eq_refl).
  - exact (proj1 (proj2 (default_export_missing_entries Sample.js
                           (VObj [("configs", VObj [("recommended", VObj [])])])
                           Sample.typescriptParser Sample.astro))
             _ _ _ eq_refl eq_refl eq_refl eq_refl).
  - exact (proj2 (proj2 (default_export_missing_entries
                           (VObj [("configs", VObj [])]) Sample.typescript
                           Sample.typescriptParser Sample.astro))
             _ _ _ eq_refl eq_refl eq_refl eq_refl).
Defined.

(** ** Object literals and the object spread *)

Section ObjectLiterals.

Context {A : Type}.

Implicit Types (k : string) (v : A) (ps acc kvs : list (string * A)).




Lemma obj_set_fresh k v ps : k ∉ ps.*1 → obj_set k v ps = ps ++ [(k, v)].
Proof.
  induction ps as [|[k0 v0] ps IH]; simpl; [done|].
  rewrite not_elem_of_cons. intros [Hne Hk].
  destruct (String.eqb_spec k k0); [done|]. by rewrite IH.
Qed.



(** A spread of properties with distinct keys onto keys it does not
    share appends them, in their order. *)
Lemma define_all_fresh acc kvs :
  NoDup (acc.*1 ++ kvs.*1) → foldl define acc kvs = acc ++ kvs.
Proof.
  revert acc. induction kvs as [|[k v] kvs IH]; intros acc; simpl.
  - intros _. by rewrite app_nil_r.
  - intros Hnd. change (define acc (k, v)) with (obj_set k v acc).
    rewrite obj_set_fresh.
    + rewrite IH; [by rewrite <-app_assoc|].
      by rewrite fmap_app, <-app_assoc.
    + apply NoDup_app in Hnd as (_ & Hdisj & _).
      intros Hin. apply (Hdisj _ Hin). apply list_elem_of_here.
Qed.


End ObjectLiterals.





(** X5: the [rules] object of the TypeScript fragment is a copy of the
    package's recommended rules: spread into an empty literal, an object
    (its keys are distinct) gives an object with the same properties in
    the same order, so the fragment sets every rule to the value the
    package gives it and sets no other rule.  The same holds of the second
    entry of the exported plan. *)
Theorem ts_fragment_copies_rules
    (typescript typescriptParser : value) (ps : list (string * value)) :
  NoDup ps.*1 →
  field "rules" (ts_fragment typescript typescriptParser (VObj ps))
  = Some (VObj ps)
  ∧ (∀ r, rule_setting (ts_fragment typescript typescriptParser (VObj ps)) r
          = obj_get r ps)
  ∧ (∀ js astro plan,
       read typescript ["configs"; "recommended"; "rules"] = Ok (VObj ps) →
       default_export js typescript typescriptParser astro = Ok plan →
       plan !! 1 ≫= field "rules" = Some (VObj ps)).
Proof.
  intros Hnd.
  assert (field "rules" (ts_fragment typescript typescriptParser (VObj ps))
          = Some (VObj ps)) as Hrules.
  { rewrite ts_fragment_fields. unfold object_literal. simpl.
    by rewrite (define_all_fresh [] ps). }
  split; [done|]. split.
  - intros r. unfold rule_setting. by rewrite Hrules.
  - intros js astro plan Hts Hplan.
    apply default_export_shape in Hplan
      as (jr & rs & ar & bundle & _ & Hts' & _ & _ & ->).
    rewrite Hts in Hts'. injection Hts' as <-. exact Hrules.
Qed.

Lemma ts_fragment_copies_rules_witness :
  field "rules"
    (ts_fragment Sample.typescript Sample.typescriptParser
       (VObj [("@typescript-eslint/no-unused-vars", VStr "error");
              ("@typescript-eslint/no-explicit-any", VStr "error")]))
  = Some (VObj [("@typescript-eslint/no-unused-vars", VStr "error");
                ("@typescript-eslint/no-explicit-any", VStr "error")]).
Proof.
  refine (proj1 (ts_fragment_copies_rules Sample.typescript
                   Sample.typescriptParser
                   [("@typescript-eslint/no-unused-vars", VStr "error");
                    ("@typescript-eslint/no-explicit-any", VStr "error")] _)).
  apply (bool_decide_unpack _). vm_compute. reflexivity.
Defined.

(** ** Array literals *)

(** X6: an array literal written in two parts evaluates part by part:
    the result of [es1 ++ es2] is the result of [es1] followed by the
    result of [es2], and it fails as soon as one part fails, the first
    part's error coming first. *)
Theorem compose_concat (es1 es2 : list element) :
  compose (es1 ++ es2)
  = (plan1 ← compose es1; plan2 ← compose es2; Ok (plan1 ++ plan2)).
Proof.
  induction es1 as [|e es1 IH].
  - simpl. by destruct (compose es2).
  - rewrite <-app_comm_cons, !compose_cons, IH.
    destruct (element_values e) as [vs|]; simpl; [|done].
    destruct (compose es1) as [plan1|]; simpl; [|done].
    destruct (compose es2) as [plan2|]; simpl; [|done].
    by rewrite app_assoc.
Qed.

(** X7: an array literal evaluates exactly when the value of each of
    its spread elements is iterable, whatever its plain elements are (an
    array, [undefined]: anything is kept as it is); the plan then holds
    the plain elements and the elements of the spread values, and nothing
    else. *)
Theorem compose_succeeds_iff (es : list element) :
  ((∃ plan, compose es = Ok plan)
   ↔ ∀ v, Spread v ∈ es → ∃ vs, iterate v = Ok vs)
  ∧ (∀ plan x, compose es = Ok plan →
       (x ∈ plan
        ↔ Item x ∈ es ∨ ∃ v vs, Spread v ∈ es ∧ iterate v = Ok vs ∧ x ∈ vs)).
Proof.
  split.
  - induction es as [|e es IH].
    + split; [|by exists []]. intros _ v Hv. by apply elem_of_nil in Hv.
    + rewrite compose_cons. split.
      * intros [plan Hplan] v Hv.
        destruct (element_values e) as [vs|] eqn:He; [|done].
        destruct (compose es) as [rest|] eqn:Hes; [|done].
        apply elem_of_cons in Hv as [<-|Hv]; [by exists vs|].
        apply IH; [by exists rest|done].
      * intros Hall.
        destruct (proj2 IH) as [rest ->].
        { intros v Hv. apply Hall. by apply list_elem_of_further. }
        destruct e as [v|v]; simpl; [by eexists|].
        destruct (Hall v) as [vs ->]; [apply list_elem_of_here|]. by eexists.
  - induction es as [|e es IH]; intros plan x.
    + intros [= <-]. split; [by intros ?%elem_of_nil|].
      intros [H|(v & vs & H & _)]; by apply elem_of_nil in H.
    + rewrite compose_cons.
      destruct (element_values e) as [vs|] eqn:He; [|done].
      destruct (compose es) as [rest|] eqn:Hes; [|done].
      simpl. intros [= <-]. rewrite elem_of_app, (IH rest x eq_refl).
      setoid_rewrite elem_of_cons. split.
      * intros [Hx|[Hx|(v & vs' & Hv & Hiter & Hx)]].
        -- destruct e as [v|v]; simpl in He.
           ++ injection He as <-. apply list_elem_of_singleton in Hx as ->.
              left. by left.
           ++ right. exists v, vs. by repeat split; [left|..].
        -- left. by right.
        -- right. exists v, vs'. by repeat split; [right|..].
      * intros [[Hx|Hx]|(v & vs' & [Hv|Hv] & Hiter & Hx)].
        -- subst e. injection He as <-. left. apply list_elem_of_here.
        -- right. by left.
        -- subst e. simpl in He. rewrite Hiter in He. injection He as <-.
           by left.
        -- right. right. by exists v, vs'.
Qed.

(** ** Sharing between the plan and the packages *)

Section Sharing.

Implicit Types (σ : Store.store) (r : Store.ref) (l : Store.loc)
  (ks : list string).

Lemma member_run r k σ : Store.member r k σ = ((Store.member r k σ).1, σ).
Proof. destruct r as [ | | |l]; try done. simpl. by destruct (σ !! l) as [[]|]. Qed.

Lemma iterate_run r σ : Store.iterate r σ = ((Store.iterate r σ).1, σ).
Proof. destruct r as [ | | |l]; try done. simpl. by destruct (σ !! l) as [[]|]. Qed.

Lemma own_props_run r σ : ∃ ps, Store.own_props r σ = (Ok ps, σ).
Proof.
  destruct r as [ | | |l]; simpl; try by eexists.
  destruct (σ !! l) as [[]|]; by eexists.
Qed.

Lemma read_cons r k ks σ :
  Store.read r (k :: ks) σ =
    match Store.member r k σ with
    | (Ok r', σ') => Store.read r' ks σ'
    | (Throw e, σ') => (Throw e, σ')
    end.
Proof. reflexivity. Qed.

Lemma read_run r ks σ : Store.read r ks σ = ((Store.read r ks σ).1, σ).
Proof.
  revert r. induction ks as [|k ks IH]; intros r; [done|].
  rewrite read_cons, member_run.
  destruct (Store.member r k σ).1; [apply IH|done].
Qed.

(** A chain read in a larger store still reads, and reads the same
    reference unless it read [undefined]. *)
Lemma read_mono σ σ' r ks r' :
  σ ⊆ σ' → (Store.read r ks σ).1 = Ok r' →
  ∃ r'', (Store.read r ks σ').1 = Ok r''
         ∧ (r' ≠ Store.RUndefined → r'' = r').
Proof.
  intros Hsub. revert r. induction ks as [|k ks IH]; intros r.
  - simpl. intros [= ->]. by exists r'.
  - rewrite !read_cons, (member_run r k σ), (member_run r k σ').
    destruct r as [ |s|t|l]; simpl; [done|apply IH|apply IH|].
    destruct (σ !! l) as [c|] eqn:Hl.
    + rewrite (lookup_weaken _ _ _ _ Hl Hsub). destruct c; simpl; apply IH.
    + simpl. destruct ks as [|k' ks]; [|done]. simpl. intros [= <-].
      destruct (σ' !! l) as [[]|]; simpl; by eexists.
Qed.

Lemma iterate_mono σ σ' r rs :
  σ ⊆ σ' → (Store.iterate r σ).1 = Ok rs → (Store.iterate r σ').1 = Ok rs.
Proof.
  intros Hsub. destruct r as [ | | |l]; simpl; try done.
  destruct (σ !! l) as [c|] eqn:Hl; [|done].
  rewrite (lookup_weaken _ _ _ _ Hl Hsub). by destruct c.
Qed.

Lemma yields_ret {A : Type} (a : A) σ (Q : A → Store.store → Prop) :
  Q a σ → Run.yields (mret a) σ Q.
Proof. intros H. by exists a, σ. Qed.

Lemma yields_bind {A B : Type} (m : Store.M A) (k : A → Store.M B) σ
    (Q : B → Store.store → Prop) :
  Run.yields m σ (fun a σ1 => Run.yields (k a) σ1 Q) →
  Run.yields (m ≫= k) σ Q.
Proof.
  intros (a & σ1 & Hm & Hsub1 & b & σ2 & Hk & Hsub2 & HQ).
  exists b, σ2. rewrite run_bind, Hm. split; [done|].
  split; [by etrans|done].
Qed.

Lemma yields_alloc (c : Store.cell) σ (Q : Store.ref → Store.store → Prop) :
  (∀ l, σ !! l = None → Q (Store.RLoc l) (<[l := c]> σ)) →
  Run.yields (Store.alloc c) σ Q.
Proof.
  intros H. eexists _, _. split; [reflexivity|].
  split; [apply alloc_fresh|]. apply H, not_elem_of_dom, is_fresh.
Qed.

Lemma yields_read σ0 σ r ks r0 (Q : Store.ref → Store.store → Prop) :
  σ0 ⊆ σ → (Store.read r ks σ0).1 = Ok r0 →
  (∀ r', (r0 ≠ Store.RUndefined → r' = r0) → Q r' σ) →
  Run.yields (Store.read r ks) σ Q.
Proof.
  intros Hsub Hr HQ. destruct (read_mono _ _ _ _ _ Hsub Hr) as (r' & Hr' & Heq).
  exists r', σ. rewrite read_run, Hr'. split; [done|]. split; [done|by apply HQ].
Qed.

Lemma yields_read_here σ r ks r0 (Q : Store.ref → Store.store → Prop) :
  (Store.read r ks σ).1 = Ok r0 → Q r0 σ → Run.yields (Store.read r ks) σ Q.
Proof. intros Hr HQ. exists r0, σ. by rewrite read_run, Hr. Qed.

Lemma yields_own_props r σ
    (Q : list (string * Store.ref) → Store.store → Prop) :
  (∀ ps, Q ps σ) → Run.yields (Store.own_props r) σ Q.
Proof.
  intros HQ. destruct (own_props_run r σ) as [ps Hps].
  exists ps, σ. by rewrite Hps.
Qed.

Lemma yields_iterate σ0 σ r rs (Q : list Store.ref → Store.store → Prop) :
  σ0 ⊆ σ → (Store.iterate r σ0).1 = Ok rs → Q rs σ →
  Run.yields (Store.iterate r) σ Q.
Proof.
  intros Hsub Hr HQ. exists rs, σ.
  by rewrite iterate_run, (iterate_mono _ _ _ _ Hsub Hr).
Qed.

Lemma yields_own_props_obj σ l (ps : list (string * Store.ref))
    (Q : list (string * Store.ref) → Store.store → Prop) :
  σ !! l = Some (Store.CObj ps) → Q ps σ →
  Run.yields (Store.own_props (Store.RLoc l)) σ Q.
Proof. intros Hl HQ. exists ps, σ. unfold Store.own_props. by rewrite Hl. Qed.

(** Entries that are values at hand are evaluated without touching the
    store. *)
Lemma elements_entries_store σ (qs : list Store.entry) :
  (Store.elements (Store.entry_element <$> qs) σ).2 = σ.
Proof.
  induction qs as [|[r|r] qs IH]; [done| |].
  - change (Store.elements (Store.entry_element <$> Store.Keep r :: qs) σ)
      with (match Store.elements (Store.entry_element <$> qs) σ with
            | (Ok rest, σ') => (Ok (r :: rest), σ')
            | (Throw e, σ') => (Throw e, σ')
            end).
    by destruct (Store.elements (Store.entry_element <$> qs) σ) as [[]].
  - change (Store.elements (Store.entry_element <$> Store.Splice r :: qs) σ)
      with (match Store.iterate r σ with
            | (Ok rs, σ1) =>
                match Store.elements (Store.entry_element <$> qs) σ1 with
                | (Ok rest, σ') => (Ok (rs ++ rest), σ')
                | (Throw e, σ') => (Throw e, σ')
                end
            | (Throw e, σ1) => (Throw e, σ1)
            end).
    rewrite iterate_run. destruct (Store.iterate r σ).1; [|done].
    by destruct (Store.elements (Store.entry_element <$> qs) σ) as [[]].
Qed.

Lemma elements_entries_throw σ (qs : list Store.entry) e :
  (Store.elements (Store.entry_element <$> qs) σ).1 = Throw e → e = TypeError.
Proof.
  induction qs as [|[r|r] qs IH]; [done| |].
  - change (Store.elements (Store.entry_element <$> Store.Keep r :: qs) σ)
      with (match Store.elements (Store.entry_element <$> qs) σ with
            | (Ok rest, σ') => (Ok (r :: rest), σ')
            | (Throw e, σ') => (Throw e, σ')
            end).
    by destruct (Store.elements (Store.entry_element <$> qs) σ) as [[]].
  - change (Store.elements (Store.entry_element <$> Store.Splice r :: qs) σ)
      with (match Store.iterate r σ with
            | (Ok rs, σ1) =>
                match Store.elements (Store.entry_element <$> qs) σ1 with
                | (Ok rest, σ') => (Ok (rs ++ rest), σ')
                | (Throw e, σ') => (Throw e, σ')
                end
            | (Throw e, σ1) => (Throw e, σ1)
            end).
    rewrite iterate_run. destruct (Store.iterate r σ).1 as [rs|e'] eqn:Hr.
    + by destruct (Store.elements (Store.entry_element <$> qs) σ) as [[]].
    + simpl. intros [= <-]. destruct r as [ | | |l]; simpl in Hr; try congruence.
      destruct (σ !! l) as [[]|]; simpl in Hr; congruence.
Qed.

Lemma elements_entries σ (qs : list Store.entry) (rss : list (list Store.ref)) :
  Forall2
    (fun q rs =>
       match q with
       | Store.Keep r => rs = [r]
       | Store.Splice r => (Store.iterate r σ).1 = Ok rs
       end) qs rss →
  Store.elements (Store.entry_element <$> qs) σ = (Ok (concat rss), σ).
Proof.
  induction 1 as [|[r|r] rs qs rss Hq _ IH]; [done| |].
  - change (Store.elements (Store.entry_element <$> Store.Keep r :: qs) σ)
      with (match Store.elements (Store.entry_element <$> qs) σ with
            | (Ok rest, σ') => (Ok (r :: rest), σ')
            | (Throw e, σ') => (Throw e, σ')
            end).
    by rewrite IH, Hq.
  - change (Store.elements (Store.entry_element <$> Store.Splice r :: qs) σ)
      with (match Store.iterate r σ with
            | (Ok rs, σ1) =>
                match Store.elements (Store.entry_element <$> qs) σ1 with
                | (Ok rest, σ') => (Ok (rs ++ rest), σ')
                | (Throw e, σ') => (Throw e, σ')
                end
            | (Throw e, σ1) => (Throw e, σ1)
            end).
    by rewrite iterate_run, Hq, IH.
Qed.

Lemma insert_chain σ0 σ l (c : Store.cell) :
  σ0 ⊆ σ → σ !! l = None → σ0 ⊆ <[l := c]> σ.
Proof. intros Hsub Hl. etrans; [exact Hsub|]. by apply insert_subseteq. Qed.

Lemma outside_chain σ0 σ l : σ0 ⊆ σ → σ !! l = None → σ0 !! l = None.
Proof. intros Hsub Hl. by eapply lookup_weaken_None. Qed.

End Sharing.

Ltac store_chain :=
  repeat first [ reflexivity | apply insert_chain; [|assumption] ].

Ltac run_step :=
  lazymatch goal with
  | |- Run.yields (mbind _ _) _ _ => apply yields_bind; cbv beta
  | |- Run.yields (mret _) _ _ => apply yields_ret; cbv beta
  | |- Run.yields (Store.alloc _) _ _ =>
      apply yields_alloc; let l := fresh "l" in
      let Hl := fresh "Hl" in intros l Hl; cbv beta
  | |- Run.yields (Store.own_props _) _ _ =>
      apply yields_own_props; let ps := fresh "ps" in intros ps; cbv beta
  end.

Ltac store_outside :=
  match goal with
  | H : ?s !! ?l = None |- _ !! ?l = None =>
      apply (outside_chain _ s l); [store_chain|exact H]
  end.

Ltac store_lookup l :=
  match goal with
  | |- context [ <[l := ?c]> ?s ] =>
      apply (lookup_weaken (<[l := c]> s)); [apply lookup_insert_eq|store_chain]
  end.

(** X8: composing over the store shares, it does not copy.  The one
    object a composition creates is the array it returns, at a location
    the store did not use; its elements are the very references it was
    given, a spliced array contributing the references it holds.  A
    composition that fails (its error is then a TypeError) leaves the
    store exactly as it was. *)
Theorem store_compose_shares (σ : Store.store) (qs : list Store.entry) :
  (∀ rss : list (list Store.ref),
     Forall2
       (fun q rs =>
          match q with
          | Store.Keep r => rs = [r]
          | Store.Splice r => (Store.iterate r σ).1 = Ok rs
          end) qs rss →
     Store.compose qs σ
     = (Ok (Store.RLoc (fresh (dom σ))),
        <[fresh (dom σ) := Store.CArr (concat rss)]> σ)
     ∧ σ !! fresh (dom σ) = None)
  ∧ (∀ e, (Store.compose qs σ).1 = Throw e →
       e = TypeError ∧ (Store.compose qs σ).2 = σ).
Proof.
  split.
  - intros rss Hqs. split; [|apply not_elem_of_dom, is_fresh].
    unfold Store.compose, Store.array_literal.
    by rewrite run_bind, (elements_entries σ qs rss Hqs).
  - intros e. unfold Store.compose, Store.array_literal. rewrite run_bind.
    pose proof (elements_entries_store σ qs) as Hstore.
    pose proof (elements_entries_throw σ qs) as Hthrow.
    destruct (Store.elements (Store.entry_element <$> qs) σ) as [[rs|e'] σ1];
      simpl in *; [done|].
    intros [= <-]. split; [by apply Hthrow|done].
Qed.

Lemma store_compose_shares_witness :
  Store.compose
    [Store.Splice (Store.RLoc 37%positive); Store.Keep (Store.RLoc 11%positive)]
    Sample.store
  = (Ok (Store.RLoc (fresh (dom Sample.store))),
     <[fresh (dom Sample.store) :=
         Store.CArr [Store.RLoc 31%positive; Store.RLoc 34%positive;
                     Store.RLoc 36%positive; Store.RLoc 11%positive]]>
       Sample.store).
Proof.
  refine (proj1 (proj1 (store_compose_shares Sample.store
                          [Store.Splice (Store.RLoc 37%positive);
                           Store.Keep (Store.RLoc 11%positive)])
                   [[Store.RLoc 31%positive; Store.RLoc 34%positive;
                     Store.RLoc 36%positive]; [Store.RLoc 11%positive]] _)).
  apply Forall2_cons_2; [vm_compute; reflexivity|].
  apply Forall2_cons_2; [reflexivity|]. apply Forall2_nil_2.
Defined.

(** X9: the object spread [{...typescript.configs.recommended.rules}]
    makes a shallow copy.  When the chain reads an object, the literal
    returns a new object, at a location the store did not use (so not
    the object that was read), with the same properties holding the same
    references; the object that was read is left as it was. *)
Theorem store_object_spread_copies
    (σ : Store.store) (r : Store.ref) (ks : list string) (l0 : Store.loc)
    (ps : list (string * Store.ref)) :
  (Store.read r ks σ).1 = Ok (Store.RLoc l0) →
  σ !! l0 = Some (Store.CObj ps) →
  NoDup ps.*1 →
  Run.yields (Store.object_literal [Store.SpreadField (Store.read r ks)]) σ
    (fun r' σ' =>
       ∃ l, r' = Store.RLoc l ∧ l ≠ l0 ∧ σ !! l = None
            ∧ σ' !! l = Some (Store.CObj ps)
            ∧ σ' !! l0 = Some (Store.CObj ps)).
Proof.
  intros Hr Hl0 Hnd. unfold Store.object_literal.
  cbn [Store.properties]. do 2 run_step.
  apply (yields_read_here _ _ _ (Store.RLoc l0)); [exact Hr|].
  run_step. apply (yields_own_props_obj _ _ ps); [exact Hl0|].
  repeat run_step. exists l. split; [done|].
  split; [intros ->; congruence|]. split; [done|].
  rewrite (define_all_fresh [] ps) by done.
  split; [apply lookup_insert_eq|].
  rewrite lookup_insert_ne; [done|]. intros ->. congruence.
Qed.

Lemma store_object_spread_copies_witness :
  Run.yields
    (Store.object_literal
       [Store.SpreadField
          (Store.read (Store.RLoc 23%positive)
             ["configs"; "recommended"; "rules"])])
    Sample.store
    (fun r' σ' =>
       ∃ l, r' = Store.RLoc l ∧ l ≠ 20%positive ∧ Sample.store !! l = None
            ∧ σ' !! l
              = Some (Store.CObj
                        [("@typescript-eslint/no-unused-vars", Store.RStr "error");
                         ("@typescript-eslint/no-explicit-any", Store.RStr "error")])
            ∧ σ' !! 20%positive
              = Some (Store.CObj
                        [("@typescript-eslint/no-unused-vars", Store.RStr "error");
                         ("@typescript-eslint/no-explicit-any", Store.RStr "error")])).
Proof.
  apply (store_object_spread_copies Sample.store (Store.RLoc 23%positive)
           ["configs"; "recommended"; "rules"] 20%positive
           [("@typescript-eslint/no-unused-vars", Store.RStr "error");
            ("@typescript-eslint/no-explicit-any", Store.RStr "error")]).
  - vm_compute. reflexivity.
  - vm_compute. reflexivity.
  - apply (bool_decide_unpack _). vm_compute. reflexivity.
Defined.

(** X10: what the exported array shares with the packages.  When the
    three chains read and the [astro] bundle is an array (or a string),
    the export returns a new array whose first entry is the very
    reference [js.configs.recommended] reads and whose bundle entries are
    the very references the bundle holds: the plan shares these fragments
    with the packages.  The TypeScript fragment, the [astro] fragment and
    the ignores fragment are new objects; the TypeScript fragment holds
    the plugin and the parser as they were imported and a [rules] object
    of its own. *)
Theorem store_export_shares_imports
    (σ : Store.store) (rjs rts rparser rastro : Store.ref)
    (r_js r_rules r_astro : Store.ref) (bundle : list Store.ref) :
  (Store.read rjs ["configs"; "recommended"] σ).1 = Ok r_js →
  (Store.read rts ["configs"; "recommended"; "rules"] σ).1 = Ok r_rules →
  (Store.read rastro ["configs"; "recommended"] σ).1 = Ok r_astro →
  (Store.iterate r_astro σ).1 = Ok bundle →
  Run.yields (Store.default_export rjs rts rparser rastro) σ
    (fun r σ' =>
       ∃ l l_ts l_astro l_ignores l_files l_options l_plugins l_rules l_parser,
         r = Store.RLoc l
         ∧ σ' !! l
           = Some (Store.CArr
                     (r_js :: Store.RLoc l_ts
                        :: bundle ++ [Store.RLoc l_astro; Store.RLoc l_ignores]))
         ∧ σ' !! l_ts
           = Some (Store.CObj
                     [ ("files", Store.RLoc l_files);
                       ("languageOptions", Store.RLoc l_options);
                       ("plugins", Store.RLoc l_plugins);
                       ("rules", Store.RLoc l_rules) ])
         ∧ σ' !! l_plugins = Some (Store.CObj [("@typescript-eslint", rts)])
         ∧ σ' !! l_options
           = Some (Store.CObj [ ("parser", rparser);
                                ("parserOptions", Store.RLoc l_parser) ])
         ∧ σ !! l = None ∧ σ !! l_ts = None ∧ σ !! l_astro = None
         ∧ σ !! l_ignores = None ∧ σ !! l_rules = None).
Proof.
  intros Hjs Hts Hastro Hiter.
  unfold Store.default_export, Store.array_literal, Store.object_literal,
    Store.str.
  cbn [Store.elements Store.properties].
  do 2 run_step. apply (yields_read_here _ _ _ r_js); [exact Hjs|].
  repeat run_step.
  eapply (yields_read σ); [store_chain|exact Hts|]. intros r_rules' _.
  repeat run_step.
  eapply (yields_read σ); [store_chain|exact Hastro|]. intros r_astro' Hr.
  assert (r_astro' = r_astro) as ->.
  { apply Hr. intros ->. by simpl in Hiter. }
  run_step.
  eapply (yields_iterate σ); [store_chain|exact Hiter|].
  repeat run_step.
  match goal with
  | |- context [ Store.CArr (r_js :: Store.RLoc ?lts :: _) ] =>
      match goal with
      | |- context [ <[lts := Store.CObj
                                (obj_set "rules" (Store.RLoc ?lr)
                                   (obj_set "plugins" (Store.RLoc ?lp)
                                      (obj_set "languageOptions" (Store.RLoc ?lo)
                                         _)))]> _ ] =>
          eexists _, lts, _, _, _, lo, lp, lr, _;
          split; [reflexivity|];
          split; [apply lookup_insert_eq|];
          split; [store_lookup lts|];
          split; [store_lookup lp|];
          split; [store_lookup lo|]
      end
  end.
  repeat split; store_outside.
Qed.

Lemma store_export_shares_imports_witness :
  Run.yields
    (Store.default_export (Store.RLoc 13%positive) (Store.RLoc 23%positive)
       (Store.ROpaque "@typescript-eslint/parser") (Store.RLoc 39%positive))
    Sample.store
    (fun r σ' =>
       ∃ l l_ts l_astro l_ignores l_files l_options l_plugins l_rules l_parser,
         r = Store.RLoc l
         ∧ σ' !! l
           = Some (Store.CArr
                     (Store.RLoc 11%positive :: Store.RLoc l_ts
                        :: [Store.RLoc 31%positive; Store.RLoc 34%positive;
                            Store.RLoc 36%positive]
                           ++ [Store.RLoc l_astro; Store.RLoc l_ignores]))
         ∧ σ' !! l_ts
           = Some (Store.CObj
                     [ ("files", Store.RLoc l_files);
                       ("languageOptions", Store.RLoc l_options);
                       ("plugins", Store.RLoc l_plugins);
                       ("rules", Store.RLoc l_rules) ])
         ∧ σ' !! l_plugins
           = Some (Store.CObj [("@typescript-eslint", Store.RLoc 23%positive)])
         ∧ σ' !! l_options
           = Some (Store.CObj
                     [ ("parser", Store.ROpaque "@typescript-eslint/parser");
                       ("parserOptions", Store.RLoc l_parser) ])
         ∧ Sample.store !! l = None ∧ Sample.store !! l_ts = None
         ∧ Sample.store !! l_astro = None ∧ Sample.store !! l_ignores = None
         ∧ Sample.store !! l_rules = None).
Proof.
  apply (store_export_shares_imports Sample.store
           (Store.RLoc 13%positive) (Store.RLoc 23%positive)
           (Store.ROpaque "@typescript-eslint/parser") (Store.RLoc 39%positive)
           (Store.RLoc 11%positive) (Store.RLoc 20%positive)
           (Store.RLoc 37%positive)
           [Store.RLoc 31%positive; Store.RLoc 34%positive;
            Store.RLoc 36%positive]);
    vm_compute; reflexivity.
Defined.
